(** * Correlation graph pruning (mrp7pred/feats/_correlation_graph.py)

    A shallow embedding of the [Node] and [CorrelationGraph] classes.

    Python objects are compared and hashed by identity here ([Node] defines
    neither [__eq__] nor [__hash__]), so a node is a reference into a heap
    of node records and every [Node(...)] call allocates a new cell.
    Correlations are IEEE binary64 numbers, as in numpy and Python.
    Exceptions are results; the [while] loop of [prune] takes fuel, and a
    run that does not stop is one that exhausts every amount of it.
    Printing and type annotations play no part in what the methods compute
    and are left out. *)

From Stdlib Require Import PrimFloat ZArith Lia.
From stdpp Require Import base option list sets.

Set Warnings "-inexact-float".
Open Scope Z_scope.

(** ** Outcomes of a computation *)

(** The exceptions the module can raise.  [NoObject] is not a Python
    exception: it marks a reference that was never allocated, which no
    state produced by the constructor contains.  A raised result carries
    no state: what a call had written before it raised is not modelled. *)
Inductive exn : Type := ValueError | KeyError | RuntimeError | NoObject.

Inductive result (A : Type) : Type :=
| Ok (a : A)
| Raise (e : exn)
| OutOfFuel.
Arguments Ok {A} a.
Arguments Raise {A} e.
Arguments OutOfFuel {A}.

#[global] Instance result_ret : MRet result := @Ok.
#[global] Instance result_bind : MBind result := λ A B k m,
  match m with
  | Ok a => k a
  | Raise e => Raise e
  | OutOfFuel => OutOfFuel
  end.
#[global] Instance result_fmap : FMap result := λ A B f m,
  match m with
  | Ok a => Ok (f a)
  | Raise e => Raise e
  | OutOfFuel => OutOfFuel
  end.

(** Object identity: the position of the object in the heap. *)
Abbreviation ref := nat.

(** ** Python containers *)

(** A [dict] keyed by node identity.  Entries are kept in insertion order,
    which is the order [keys()] and [values()] produce. *)
Module Dict.
Definition t : Type := list (ref * float).

Definition len (d : t) : nat := length d.
Definition keys (d : t) : list ref := d.*1.
Definition values (d : t) : list float := d.*2.

(** [d.get(k)] *)
Fixpoint get (k : ref) (d : t) : option float :=
  match d with
  | [] => None
  | (k', v) :: d => if decide (k = k') then Some v else get k d
  end.

(** [d[k] = v] *)
Fixpoint setitem (k : ref) (v : float) (d : t) : t :=
  match d with
  | [] => [(k, v)]
  | (k', v') :: d =>
      if decide (k = k') then (k', v) :: d else (k', v') :: setitem k v d
  end.

(** [del d[k]] *)
Fixpoint delitem (k : ref) (d : t) : result t :=
  match d with
  | [] => Raise KeyError
  | (k', v') :: d =>
      if decide (k = k') then Ok d
      else d' ← delitem k d; Ok ((k', v') :: d')
  end.
End Dict.

(** [l.remove(x)]: drops the first occurrence, [ValueError] when absent. *)
Fixpoint list_remove (x : ref) (l : list ref) : result (list ref) :=
  match l with
  | [] => Raise ValueError
  | y :: l =>
      if decide (x = y) then Ok l
      else l' ← list_remove x l; Ok (y :: l')
  end.

(** Truth value of the result of [dict.get]: [None] and zero are false,
    every other float (NaN included) is true. *)
Definition truthy (o : option float) : bool :=
  match o with
  | None => false
  | Some w => negb (w =? 0)%float
  end.

(** The builtin [sum] over floats: left to right, starting from zero. *)
Definition sum (ws : list float) : float :=
  foldl (λ acc w, acc + w)%float 0%float ws.

(** ** Node *)

Module Node.
Record t : Type := mk { value : Z; edge : Dict.t }.

Abbreviation heap := (list t).

(** [Node(value)]: a new object with an empty adjacency. *)
Definition new (v : Z) (h : heap) : ref * heap :=
  (length h, h ++ [mk v []]).

Definition deref (r : ref) (h : heap) : result t :=
  match h !! r with
  | Some n => Ok n
  | None => Raise NoObject
  end.

(** Mutates the adjacency of the object at [r] in place. *)
Definition set_edge (r : ref) (d : Dict.t) (h : heap) : heap :=
  match h !! r with
  | Some n => <[r := mk (value n) d]> h
  | None => h
  end.

(** [Node.link] (lines 29-33): [self.edge[node] = pcc]. *)
Definition link (self node : ref) (pcc : float) (h : heap) : result heap :=
  n ← deref self h;
  Ok (set_edge self (Dict.setitem node pcc (edge n)) h).

(** [Node.unlink] (lines 35-42).  The second [del] reads [self.edge] as
    the first one left it, which matters when [self] is [node]. *)
Definition unlink (self node : ref) (h : heap) : result heap :=
  n_self ← deref self h;
  if negb (truthy (Dict.get node (edge n_self))) then Raise ValueError
  else
    n_node ← deref node h;
    d ← Dict.delitem self (edge n_node);
    let h := set_edge node d h in
    n_self ← deref self h;
    d ← Dict.delitem node (edge n_self);
    Ok (set_edge self d h).

(** [Node.has_leaf_child] (lines 44-51); [any_leaf] is its loop. *)
Fixpoint any_leaf (ks : list ref) (h : heap) : result bool :=
  match ks with
  | [] => Ok false
  | neighbor :: ks =>
      n ← deref neighbor h;
      if decide (Dict.len (edge n) = 1%nat) then Ok true else any_leaf ks h
  end.

Definition has_leaf_child (self : ref) (h : heap) : result bool :=
  n ← deref self h;
  any_leaf (Dict.keys (edge n)) h.

(** [Node.get_overall_weight] (lines 53-57) *)
Definition get_overall_weight (self : ref) (h : heap) : result float :=
  n ← deref self h;
  Ok (sum (Dict.values (edge n))).
End Node.

(** ** The correlation matrix *)

(** A [DataFrame] as the constructor uses it: its [shape] and positional
    access [iloc]. *)
Record DataFrame : Type := { shape : nat * nat; iloc : nat → nat → float }.

(** A frame given by its rows; the width is that of the first row. *)
Definition frame_of_rows (rows : list (list float)) : DataFrame :=
  {| shape := (length rows, length (default [] (head rows)));
     iloc := λ i j, default nan (rows !! i ≫= (.!! j)) |}.

(** ** CorrelationGraph *)

Module CorrelationGraph.
(** The caller's matrix, the heap of node objects and the three
    attributes of the graph object. *)
Record State : Type := mk {
  corr_matrix : DataFrame;
  heap : Node.heap;
  nodes : list ref;
  to_drop : list Z;
  num_edges : Z
}.

Definition set_heap (h : Node.heap) (s : State) : State :=
  mk (corr_matrix s) h (nodes s) (to_drop s) (num_edges s).
Definition set_nodes (l : list ref) (s : State) : State :=
  mk (corr_matrix s) (heap s) l (to_drop s) (num_edges s).
Definition set_to_drop (l : list Z) (s : State) : State :=
  mk (corr_matrix s) (heap s) (nodes s) l (num_edges s).
Definition set_num_edges (k : Z) (s : State) : State :=
  mk (corr_matrix s) (heap s) (nodes s) (to_drop s) k.

Definition new_Node (v : Z) (s : State) : ref * State :=
  let '(r, h) := Node.new v (heap s) in (r, set_heap h s).

(** [if node not in self.nodes: self.nodes.append(node)] *)
Definition add_node (node : ref) (s : State) : State :=
  if decide (node ∈ nodes s) then s else set_nodes (nodes s ++ [node]) s.

(** [self.nodes.remove(node)] *)
Definition remove (node : ref) (s : State) : result State :=
  l ← list_remove node (nodes s); Ok (set_nodes l s).

Definition link (self node : ref) (pcc : float) (s : State) : result State :=
  h ← Node.link self node pcc (heap s); Ok (set_heap h s).

Definition unlink (self node : ref) (s : State) : result State :=
  h ← Node.unlink self node (heap s); Ok (set_heap h s).

(** *** Loops *)

(** [for x in range(lo, hi)] *)
Fixpoint for_each {St : Type} (l : list nat) (body : nat → St → result St)
    (s : St) : result St :=
  match l with
  | [] => Ok s
  | x :: l => s ← body x s; for_each l body s
  end.

Definition range (lo hi : nat) : list nat := seq lo (hi - lo).

(** [for node in self.nodes] where the body may change [self.nodes]: the
    list iterator is an index into the live list.  Returns the final
    state and the elements the loop visited, in order. *)
Fixpoint for_live {St : Type} (cur : St → list ref)
    (body : ref → St → result St) (fuel i : nat) (s : St)
    : result (St * list ref) :=
  match cur s !! i with
  | None => Ok (s, [])
  | Some x =>
      match fuel with
      | O => OutOfFuel
      | S fuel =>
          s ← body x s;
          '(s, visited) ← for_live cur body fuel (S i) s;
          Ok (s, x :: visited)
      end
  end.

(** [for neighbor in node.edge.keys()] where the body may change
    [node.edge]: the dict iterator remembers the size the dict had when
    the loop began ([di_used]) and raises as soon as it differs. *)
Fixpoint for_keys (node : ref) (body : ref → State → result State)
    (fuel di_used di_pos : nat) (s : State) : result State :=
  n ← Node.deref node (heap s);
  if decide (Dict.len (Node.edge n) = di_used) then
    match Dict.keys (Node.edge n) !! di_pos with
    | None => Ok s
    | Some neighbor =>
        match fuel with
        | O => OutOfFuel
        | S fuel =>
            s ← body neighbor s;
            for_keys node body fuel di_used (S di_pos) s
        end
    end
  else Raise RuntimeError.

Definition for_keys_of (node : ref) (body : ref → State → result State)
    (s : State) : result State :=
  n ← Node.deref node (heap s);
  for_keys node body (Dict.len (Node.edge n)) (Dict.len (Node.edge n)) 0 s.

(** *** Construction *)

(** [CorrelationGraph.__init__] (lines 125-156).  [init_col] is the body of
    the loop over [col], [init_row] the body of the loop over [row]; [node]
    is the object made for the current row. *)
Definition init_col (threshold : float) (row node col : nat) (s : State)
    : result State :=
  let corr := iloc (corr_matrix s) row col in
  if (threshold <=? corr)%float then
    let '(node_new, s) := new_Node (Z.of_nat col) s in
    s ← link node node_new corr s;
    let s := set_num_edges (num_edges s + 1) s in
    Ok (add_node node_new s)
  else Ok s.

Definition init_row (threshold : float) (n row : nat) (s : State)
    : result State :=
  let '(node, s) := new_Node (Z.of_nat row) s in
  let s := add_node node s in
  for_each (range (row + 1) n) (init_col threshold row node) s.

Definition __init__ (corr_matrix : DataFrame) (threshold : float)
    : result State :=
  if decide ((shape corr_matrix).1 ≠ (shape corr_matrix).2) then
    Raise ValueError
  else
    for_each (range 0 (shape corr_matrix).1)
      (init_row threshold (shape corr_matrix).1)
      (mk corr_matrix [] [] [] 0).

(** *** Removal *)

(** [CorrelationGraph._remove_node] (lines 158-166) *)
Definition _remove_node (node : ref) (s : State) : result State :=
  if decide (node ∉ nodes s) then Raise ValueError
  else
    s ← remove node s;
    for_keys_of node (λ neighbor s, unlink neighbor node s) s.

(** [CorrelationGraph._remove_nodes_with_leaf_child] (lines 168-183), Round 1.
    [r1_body] is the body of its loop; [round1] also returns the nodes the
    loop visited. *)
Definition r1_body (node : ref) (s : State) : result State :=
  n ← Node.deref node (heap s);
  if decide (Dict.len (Node.edge n) = 0%nat) then remove node s
  else
    leaf ← Node.has_leaf_child node (heap s);
    if leaf : bool then
      let s := set_to_drop (to_drop s ++ [Node.value n]) s in
      s ← for_keys_of node
            (λ neighbor s,
               s ← unlink neighbor node s;
               Ok (set_num_edges (num_edges s - 1) s)) s;
      remove node s
    else Ok s.

Definition round1 (s : State) : result (State * list ref) :=
  for_live nodes r1_body (length (nodes s)) 0 s.

Definition _remove_nodes_with_leaf_child (s : State) : result State :=
  fst <$> round1 s.

(** [CorrelationGraph._remove_nodes_in_cycles] (lines 185-200), Round 2.
    The loop carries the locals [max_weight] and [max_weight_node] next to
    the state; the placeholder [Node(-1)] is an object like any other. *)
Definition r2_body (node : ref) (st : State * (float * ref))
    : result (State * (float * ref)) :=
  let '(s, (max_weight, max_weight_node)) := st in
  n ← Node.deref node (heap s);
  if decide (Dict.len (Node.edge n) = 0%nat) then
    s ← remove node s; Ok (s, (max_weight, max_weight_node))
  else
    let sum_weight := sum (Dict.values (Node.edge n)) in
    if (max_weight <? sum (Dict.values (Node.edge n)))%float
    then Ok (s, (sum_weight, node))
    else Ok (s, (max_weight, max_weight_node)).

Definition round2 (s : State)
    : result (State * (float * ref) * list ref) :=
  let max_weight := 0%float in
  let '(max_weight_node, s) := new_Node (-1) s in
  for_live (λ st, nodes st.1) r2_body (length (nodes s)) 0
    (s, (max_weight, max_weight_node)).

Definition _remove_nodes_in_cycles (s : State) : result State :=
  '(s, (_, max_weight_node), _) ← round2 s;
  n ← Node.deref max_weight_node (heap s);
  Ok (set_to_drop (to_drop s ++ [Node.value n]) s).

(** [CorrelationGraph.prune] (lines 202-211):
    [while self.num_edges != 0: R1; R2] *)
Fixpoint prune (fuel : nat) (s : State) : result State :=
  if decide (num_edges s = 0) then Ok s
  else
    match fuel with
    | O => OutOfFuel
    | S fuel =>
        s ← _remove_nodes_with_leaf_child s;
        s ← _remove_nodes_in_cycles s;
        prune fuel s
    end.

(** The state after at most [k] iterations of the loop of [prune]. *)
Fixpoint prune_steps (k : nat) (s : State) : result State :=
  match k with
  | O => Ok s
  | S k =>
      if decide (num_edges s = 0) then Ok s
      else
        s ← _remove_nodes_with_leaf_child s;
        s ← _remove_nodes_in_cycles s;
        prune_steps k s
  end.

(** *** The rounds of a run *)

Inductive round : Type := Round1 | Round2.

(** One entry per round the loop invoked: the round, [num_edges] when it
    was called and, if it returned, [num_edges] at that point. *)
Definition entry : Type := round * Z * option Z.

Definition edges_after (r : result State) : option Z :=
  match r with
  | Ok s => Some (num_edges s)
  | _ => None
  end.

(** [prune] together with the log of the rounds it invoked. *)
Fixpoint prune_traced (fuel : nat) (s : State) : list entry * result State :=
  if decide (num_edges s = 0) then ([], Ok s)
  else
    match fuel with
    | O => ([], OutOfFuel)
    | S fuel =>
        let r1 := _remove_nodes_with_leaf_child s in
        let e1 := (Round1, num_edges s, edges_after r1) in
        match r1 with
        | Ok s1 =>
            let r2 := _remove_nodes_in_cycles s1 in
            let e2 := (Round2, num_edges s1, edges_after r2) in
            match r2 with
            | Ok s2 =>
                let '(log, r) := prune_traced fuel s2 in
                (e1 :: e2 :: log, r)
            | _ => ([e1; e2], r2)
            end
        | _ => ([e1], r1)
        end
    end.

(** The values of the nodes in [self.nodes], in list order. *)
Definition node_values (s : State) : list Z :=
  omap (λ r, Node.value <$> heap s !! r) (nodes s).
End CorrelationGraph.

Import CorrelationGraph.

(** ** Sample inputs *)

(** Two features correlated at 0.95. *)
Definition corr_pair : DataFrame :=
  frame_of_rows [[1; 0.95]; [0.95; 1]]%float.

(** Two features correlated at 0.1. *)
Definition corr_apart : DataFrame :=
  frame_of_rows [[1; 0.1]; [0.1; 1]]%float.

(** Three features; feature 0 is linked to 1 and 2 at 0.3, features 1 and
    2 to each other at 0.9. *)
Definition corr_three : DataFrame :=
  frame_of_rows [[1; 0.3; 0.3]; [0.3; 1; 0.9]; [0.3; 0.9; 1]]%float.

(** Two node objects linked to each other with weight zero:
    [a = Node(0); b = Node(1); a.link(b, 0.0); b.link(a, 0.0)]. *)
Definition zero_linked : result Node.heap :=
  let '(a, h) := Node.new 0 [] in
  let '(b, h) := Node.new 1 h in
  h ← Node.link a b 0%float h;
  Node.link b a 0%float h.

(** Two node objects after [a = Node(0); b = Node(1); a.link(b, 0.95)]. *)
Definition once_linked : result Node.heap :=
  let '(a, h) := Node.new 0 [] in
  let '(b, h) := Node.new 1 h in
  Node.link a b 0.95%float h.

(** The graph the constructor builds from [corr_pair] with threshold 0.9. *)
Definition pair_graph : State :=
  mk corr_pair
    [Node.mk 0 [(1%nat, 0.95%float)]; Node.mk 1 []; Node.mk 1 []]
    [0; 1; 2]%nat [] 1.

(** A graph of two nodes that hold each other as neighbours. *)
Definition mutual_pair : State :=
  mk corr_pair
    [Node.mk 0 [(1%nat, 0.95%float)]; Node.mk 1 [(0%nat, 0.95%float)]]
    [0; 1]%nat [] 1.

(** * Vocabulary of the statements *)

(** [s'] is [s] with some elements taken out of [nodes]. *)
Definition only_removes (s s' : State) : Prop :=
  corr_matrix s' = corr_matrix s ∧ heap s' = heap s ∧
  to_drop s' = to_drop s ∧ num_edges s' = num_edges s ∧
  nodes s' ⊆ nodes s ∧ (length (nodes s') ≤ length (nodes s))%nat.

(** Every adjacency key designates an object whose own adjacency is empty:
    [link] writes one direction only, and its target is always a new node. *)
Definition flat (h : Node.heap) : Prop :=
  ∀ r n k, h !! r = Some n → k ∈ Dict.keys (Node.edge n) →
    ∃ n', h !! k = Some n' ∧ Node.edge n' = [].

Definition built (s : State) : Prop :=
  flat (heap s) ∧ ∀ r, r ∈ nodes s → (r < length (heap s))%nat.

(** [above m t row col]: the test [corr >= threshold] at entry (row, col). *)
Definition above (m : DataFrame) (t : float) (row col : nat) : bool :=
  (t <=? iloc m row col)%float.

(** The columns the constructor links to [row]. *)
Definition linked (m : DataFrame) (t : float) (n row : nat) : list nat :=
  List.filter (above m t row) (range (row + 1) n).

(** What holds between two rows of the constructor's outer loop. *)
Record init_inv (m : DataFrame) (s : State) : Prop := {
  inv_matrix : corr_matrix s = m;
  inv_to_drop : to_drop s = [];
  inv_flat : flat (heap s);
  inv_nodes : nodes s = seq 0 (length (heap s))
}.

(** What holds inside a row: moreover the row's node exists and is no
    one's neighbour. *)
Record row_inv (m : DataFrame) (node : ref) (s : State) : Prop := {
  row_init : init_inv m s;
  row_node : (node < length (heap s))%nat;
  row_fresh : ∀ r n, heap s !! r = Some n → node ∉ Dict.keys (Node.edge n)
}.

(** The values of one row's nodes, in allocation order: the row's own
    node, then one new node per linked column. *)
Definition row_values (m : DataFrame) (t : float) (n row : nat) : list Z :=
  Z.of_nat row :: (Z.of_nat <$> linked m t n row).

(** The number of pairs (i, j) with i < j < n whose entry is at least the
    threshold, counted over the whole index square. *)
Definition pairs_above (m : DataFrame) (t : float) : nat :=
  length
    (List.filter (λ p, (p.1 <? p.2)%nat && above m t p.1 p.2)
       (list_prod (seq 0 (shape m).1) (seq 0 (shape m).1))).

(** [weight h a b]: the weight under which the adjacency of [a] holds [b],
    if it does. *)
Definition weight (h : Node.heap) (a b : ref) : option float :=
  h !! a ≫= λ n, Dict.get b (Node.edge n).

(** The objects the constructor allocates for [row] when the heap already
    holds [base] objects: the node of the row, whose adjacency has one
    entry per linked column, keyed by the object allocated for that column
    and weighted by the matrix entry; then, for each linked column in
    turn, a node of its own without any edge. *)
Definition row_objects (m : DataFrame) (t : float) (n base row : nat)
    : list Node.t :=
  Node.mk (Z.of_nat row)
    (imap (λ k col, ((base + 1 + k)%nat, iloc m row col)) (linked m t n row))
  :: ((λ col, Node.mk (Z.of_nat col) []) <$> linked m t n row).

Fixpoint rows_objects (m : DataFrame) (t : float) (n base : nat)
    (rows : list nat) : list Node.t :=
  match rows with
  | [] => []
  | row :: rows =>
      row_objects m t n base row ++
      rows_objects m t n (base + length (row_objects m t n base row)) rows
  end.

(** The reference of the node the constructor makes for [row]: the rows
    before it have each taken one reference and one more per linked
    column. *)
Definition row_ref (m : DataFrame) (t : float) (n row : nat) : ref :=
  sum_list_with (λ r, S (length (linked m t n r))) (seq 0 row).

(** [s'] has the heap of [s], and its node list is that of [s] without
    some nodes that have no neighbour. *)
Definition sheds_isolated (s s' : State) : Prop :=
  heap s' = heap s ∧ nodes s' `sublist_of` nodes s ∧
  ∀ r, r ∈ nodes s →
    r ∈ nodes s' ∨ ∃ n, heap s !! r = Some n ∧ Node.edge n = [].

(** * Facts *)

(** ** The result monad *)

Lemma bind_Ok {A B} (m : result A) (k : A → result B) (b : B) :
  m ≫= k = Ok b ↔ ∃ a, m = Ok a ∧ k a = Ok b.
Proof.
  split.
  - destruct m as [a| |]; try discriminate. intros H. by exists a.
  - by intros (a & -> & H).
Qed.

Lemma fmap_Ok {A B} (f : A → B) (m : result A) (b : B) :
  f <$> m = Ok b ↔ ∃ a, m = Ok a ∧ b = f a.
Proof.
  split.
  - destruct m as [a| |]; try discriminate. intros [= <-]. by exists a.
  - by intros (a & -> & ->).
Qed.

(** Splits every hypothesis saying that a sequence of steps returned. *)
Ltac inv_ok :=
  repeat match goal with
    | H : Ok ?a = Ok ?b |- _ =>
        assert (a = b) by congruence; clear H; try subst
    | H : Raise _ = Ok _ |- _ => discriminate H
    | H : OutOfFuel = Ok _ |- _ => discriminate H
    | H : _ ≫= _ = Ok _ |- _ =>
        let a := fresh "a" in
        let Ha := fresh "Ha" in
        apply bind_Ok in H as (a & Ha & H)
    | H : _ <$> _ = Ok _ |- _ =>
        let a := fresh "a" in
        let Ha := fresh "Ha" in
        apply fmap_Ok in H as (a & Ha & H)
    end.

(** ** Containers *)

Lemma delitem_length k d d' :
  Dict.delitem k d = Ok d' → length d = S (length d').
Proof.
  revert d'. induction d as [|[k' v'] d IH]; intros d' H; simpl in H.
  - discriminate.
  - destruct (decide (k = k')).
    + by injection H as ->.
    + inv_ok. simpl. f_equal. by apply IH.
Qed.

Lemma list_remove_length x l l' :
  list_remove x l = Ok l' → length l = S (length l').
Proof.
  revert l'. induction l as [|y l IH]; intros l' H; simpl in H.
  - discriminate.
  - destruct (decide (x = y)).
    + by injection H as ->.
    + inv_ok. simpl. f_equal. by apply IH.
Qed.

Lemma list_remove_elem x l : x ∈ l → ∃ l', list_remove x l = Ok l'.
Proof.
  induction l as [|y l IH]; intros Hx.
  - by apply elem_of_nil in Hx.
  - simpl. destruct (decide (x = y)) as [|Hne]; [by eexists|].
    apply elem_of_cons in Hx as [?|Hx]; [done|].
    destruct (IH Hx) as (l' & ->). by eexists.
Qed.

Lemma list_remove_subseteq x l l' : list_remove x l = Ok l' → l' ⊆ l.
Proof.
  revert l'. induction l as [|y l IH]; intros l' H; simpl in H.
  - discriminate.
  - destruct (decide (x = y)).
    + injection H as ->. intros z Hz. by apply elem_of_cons; right.
    + inv_ok. specialize (IH _ Ha). intros z [->|Hz]%elem_of_cons.
      * apply elem_of_cons; by left.
      * apply elem_of_cons; right. by apply IH.
Qed.

(** ** Node *)

Lemma deref_Ok r h n : Node.deref r h = Ok n ↔ h !! r = Some n.
Proof.
  unfold Node.deref. destruct (h !! r); split; intros H; by inv_ok || by simplify_eq.
Qed.

Lemma set_edge_length r d h : length (Node.set_edge r d h) = length h.
Proof.
  unfold Node.set_edge. destruct (h !! r); [apply length_insert|done].
Qed.

Lemma set_edge_lookup_eq r d h n :
  h !! r = Some n → Node.set_edge r d h !! r = Some (Node.mk (Node.value n) d).
Proof.
  intros H. unfold Node.set_edge. rewrite H.
  apply list_lookup_insert_eq. by eapply lookup_lt_Some.
Qed.

Lemma set_edge_lookup_ne r r' d h :
  r ≠ r' → Node.set_edge r d h !! r' = h !! r'.
Proof.
  intros H. unfold Node.set_edge. destruct (h !! r); [|done].
  by apply list_lookup_insert_ne.
Qed.

(** A successful [unlink] makes the adjacency of its argument shorter. *)
Lemma unlink_shrinks self node h h' n :
  Node.unlink self node h = Ok h' → h !! node = Some n →
  ∃ n', h' !! node = Some n' ∧
        (length (Node.edge n') < length (Node.edge n))%nat.
Proof.
  unfold Node.unlink. intros H Hn.
  apply bind_Ok in H as (n_self & Hself & H).
  destruct (negb _); [discriminate|].
  apply bind_Ok in H as (n_node & Hnode & H).
  apply deref_Ok in Hnode. rewrite Hn in Hnode. injection Hnode as <-.
  apply bind_Ok in H as (d & Hd & H).
  apply bind_Ok in H as (n_self' & Hself' & H).
  apply bind_Ok in H as (d' & Hd' & H). injection H as <-.
  apply delitem_length in Hd, Hd'.
  apply deref_Ok in Hself'.
  destruct (decide (self = node)) as [->|Hne].
  - rewrite (set_edge_lookup_eq _ _ _ _ Hn) in Hself'.
    injection Hself' as <-. simpl in Hd'.
    eexists. split.
    + eapply set_edge_lookup_eq. by apply set_edge_lookup_eq.
    + simpl. lia.
  - eexists. split.
    + rewrite set_edge_lookup_ne by done. by apply set_edge_lookup_eq.
    + simpl. lia.
Qed.

(** ** Iterating a dict that the body shrinks *)

(** The loop over [node.edge.keys()] whose body unlinks [node] from the
    neighbour returns only when there was nothing to iterate: after the
    first unlink the dict is smaller and the iterator raises. *)
Lemma for_keys_of_unlink_Ok node body s s' :
  (∀ k s1 s2, body k s1 = Ok s2 →
     Node.unlink k node (heap s1) = Ok (heap s2)) →
  for_keys_of node body s = Ok s' →
  s' = s ∧ ∃ n, heap s !! node = Some n ∧ Node.edge n = [].
Proof.
  intros Hbody H. unfold for_keys_of in H.
  apply bind_Ok in H as (n & Hn & H). apply deref_Ok in Hn.
  destruct (Node.edge n) as [|[k w] d] eqn:Hd.
  - simpl in H. unfold Node.deref in H. rewrite Hn in H. simpl in H.
    rewrite Hd in H. simpl in H. inv_ok. eauto.
  - exfalso. unfold Dict.len in H.
    change (length ((k, w) :: d)) with (S (length d)) in H.
    cbn [for_keys] in H.
    apply bind_Ok in H as (n0 & Hn0 & H). apply deref_Ok in Hn0.
    rewrite Hn in Hn0. injection Hn0 as <-. rewrite Hd in H.
    rewrite decide_True in H by done. simpl in H.
    apply bind_Ok in H as (s1 & Hs1 & H).
    apply Hbody in Hs1.
    destruct (unlink_shrinks _ _ _ _ _ Hs1 Hn) as (n' & Hn' & Hlt).
    rewrite Hd in Hlt.
    change (length ((k, w) :: d)) with (S (length d)) in Hlt.
    destruct (length d) as [|fuel]; cbn [for_keys] in H;
      apply bind_Ok in H as (n0 & Hn0 & H); apply deref_Ok in Hn0;
      rewrite Hn' in Hn0; injection Hn0 as <-;
      rewrite decide_False in H by (unfold Dict.len; lia); discriminate.
Qed.

(** ** States that differ by removals from [nodes] only *)

Lemma only_removes_refl s : only_removes s s.
Proof. by repeat split. Qed.

Lemma only_removes_trans s1 s2 s3 :
  only_removes s1 s2 → only_removes s2 s3 → only_removes s1 s3.
Proof.
  intros (?&?&?&?&?&?) (?&?&?&?&?&?).
  repeat split; try congruence; [set_solver | lia].
Qed.

Lemma remove_only_removes node s s' : remove node s = Ok s' → only_removes s s'.
Proof.
  unfold remove. intros H. inv_ok.
  repeat split; simpl.
  - by eapply list_remove_subseteq.
  - apply list_remove_length in Ha. lia.
Qed.

(** ** Loops over the live node list *)

Section ForLive.
Context {St : Type} (cur : St → list ref) (body : ref → St → result St).

(** A preorder that every step of the body respects relates the state
    before the loop to the state after it. *)
Lemma for_live_rel (R : St → St → Prop) :
  (∀ s, R s s) → (∀ s1 s2 s3, R s1 s2 → R s2 s3 → R s1 s3) →
  (∀ x s s', body x s = Ok s' → R s s') →
  ∀ fuel i s s' visited,
    for_live cur body fuel i s = Ok (s', visited) → R s s'.
Proof.
  intros Hrefl Htrans Hbody.
  induction fuel as [|fuel IH]; intros i s s' visited H; simpl in H.
  - destruct (cur s !! i); [discriminate|]. inv_ok. by simplify_eq.
  - destruct (cur s !! i) as [x|]; [|inv_ok; by simplify_eq].
    apply bind_Ok in H as (s1 & Hs1 & H).
    apply bind_Ok in H as ([s2 vs] & Hs2 & H). inv_ok. simplify_eq.
    eapply Htrans; [by eapply Hbody | by eapply IH].
Qed.

(** The loop returns when its body does, as long as the body keeps an
    invariant and does not make the list longer. *)
Lemma for_live_total (P : St → Prop) :
  (∀ i x s, P s → cur s !! i = Some x →
     ∃ s', body x s = Ok s' ∧ P s' ∧ (length (cur s') ≤ length (cur s))%nat) →
  ∀ fuel i s,
    P s → (length (cur s) ≤ i + fuel)%nat →
    ∃ s' visited, for_live cur body fuel i s = Ok (s', visited) ∧ P s'.
Proof.
  intros Hbody.
  induction fuel as [|fuel IH]; intros i s HP Hlen; simpl.
  - destruct (cur s !! i) as [x|] eqn:Hx; [|by eauto].
    apply lookup_lt_Some in Hx. lia.
  - destruct (cur s !! i) as [x|] eqn:Hx; [|by eauto].
    destruct (Hbody _ _ _ HP Hx) as (s1 & -> & HP1 & Hle). simpl.
    destruct (IH (S i) s1 HP1) as (s2 & vs & -> & HP2); [lia|].
    simpl. eauto.
Qed.

(** The elements visited are elements the list held at some point: here,
    with a body that only removes, elements of the list at the start. *)
Lemma for_live_visited :
  (∀ x s s', body x s = Ok s' → cur s' ⊆ cur s) →
  ∀ fuel i s s' visited,
    for_live cur body fuel i s = Ok (s', visited) → visited ⊆ cur s.
Proof.
  intros Hbody.
  induction fuel as [|fuel IH]; intros i s s' visited H; simpl in H.
  - destruct (cur s !! i); [discriminate|]. inv_ok. simplify_eq.
    apply list_subseteq_nil.
  - destruct (cur s !! i) as [x|] eqn:Hx;
      [|inv_ok; simplify_eq; apply list_subseteq_nil].
    apply bind_Ok in H as (s1 & Hs1 & H).
    apply bind_Ok in H as ([s2 vs] & Hs2 & H). inv_ok. simplify_eq.
    intros y [->|Hy]%elem_of_cons.
    + by eapply list_elem_of_lookup_2.
    + eapply Hbody; [done|]. by eapply IH.
Qed.
End ForLive.

(** ** Round 1 *)

Lemma r1_body_Ok node s s' :
  r1_body node s = Ok s' → s' = s ∨ remove node s = Ok s'.
Proof.
  unfold r1_body. intros H.
  apply bind_Ok in H as (n & Hn & H). apply deref_Ok in Hn.
  destruct (decide (Dict.len (Node.edge n) = 0%nat)) as [|Hne]; [by right|].
  apply bind_Ok in H as ([] & _ & H); [|inv_ok; by left].
  apply bind_Ok in H as (s1 & Hs1 & _).
  apply for_keys_of_unlink_Ok in Hs1 as (_ & n' & Hn' & Hnil).
  - simpl in Hn'. rewrite Hn in Hn'. injection Hn' as <-.
    by rewrite Hnil in Hne.
  - intros k s2 s3 Hk. apply bind_Ok in Hk as (s4 & Hk & ?). inv_ok.
    unfold unlink in Hk. by inv_ok.
Qed.

Lemma round1_only_removes s s' visited :
  round1 s = Ok (s', visited) → only_removes s s'.
Proof.
  unfold round1.
  apply for_live_rel; [apply only_removes_refl | apply only_removes_trans |].
  intros x s1 s2 [->|H]%r1_body_Ok;
    [apply only_removes_refl | by eapply remove_only_removes].
Qed.

Lemma remove_nodes_with_leaf_child_only_removes s s' :
  _remove_nodes_with_leaf_child s = Ok s' → only_removes s s'.
Proof.
  unfold _remove_nodes_with_leaf_child. intros H.
  apply fmap_Ok in H as ([s1 vs] & H & ->). by eapply round1_only_removes.
Qed.

(** ** Round 2 *)

Lemma r2_body_only_removes node st st' :
  r2_body node st = Ok st' → only_removes st.1 st'.1.
Proof.
  destruct st as [s [w r]]. unfold r2_body. intros H.
  apply bind_Ok in H as (n & _ & H).
  destruct (decide _).
  - apply bind_Ok in H as (s1 & Hs1 & H). inv_ok.
    by eapply remove_only_removes.
  - destruct (_ <? _)%float; inv_ok; apply only_removes_refl.
Qed.

Lemma remove_nodes_in_cycles_Ok s s' :
  _remove_nodes_in_cycles s = Ok s' →
  corr_matrix s' = corr_matrix s ∧
  heap s' = heap s ++ [Node.mk (-1) []] ∧
  (∃ v, to_drop s' = to_drop s ++ [v]) ∧
  num_edges s' = num_edges s ∧
  nodes s' ⊆ nodes s.
Proof.
  unfold _remove_nodes_in_cycles, round2, new_Node. simpl. intros H.
  apply bind_Ok in H as ([[s1 [w r]] vs] & Hloop & H).
  apply bind_Ok in H as (n & _ & H). inv_ok. simpl.
  apply (for_live_rel _ _ (λ st st', only_removes st.1 st'.1)) in Hloop.
  - destruct Hloop as (?&?&?&?&?&?). simpl in *.
    repeat split; try done. exists (Node.value n). congruence.
  - intros. apply only_removes_refl.
  - intros. by eapply only_removes_trans.
  - apply r2_body_only_removes.
Qed.

(** ** The prune loop *)

(** Neither round changes [num_edges], so the loop returns only when it
    has nothing to do. *)
Lemma prune_Ok fuel s s' : prune fuel s = Ok s' → num_edges s = 0 ∧ s' = s.
Proof.
  revert s. induction fuel as [|fuel IH]; intros s H; simpl in H.
  - destruct (decide (num_edges s = 0)); [by inv_ok|discriminate].
  - destruct (decide (num_edges s = 0)) as [|Hne]; [by inv_ok|].
    apply bind_Ok in H as (s1 & H1 & H).
    apply bind_Ok in H as (s2 & H2 & H).
    apply remove_nodes_with_leaf_child_only_removes in H1 as (_&_&_&H1&_).
    apply remove_nodes_in_cycles_Ok in H2 as (_&_&_&H2&_).
    apply IH in H as [H _]. congruence.
Qed.

(** ** The fuel of the inner loops is enough *)

(** Only the [while] loop of [prune] can run out of fuel: every [for] loop
    is given as much fuel as its container has elements. *)

Lemma bind_fuel {A B} (m : result A) (k : A → result B) :
  m ≠ OutOfFuel → (∀ a, m = Ok a → k a ≠ OutOfFuel) → m ≫= k ≠ OutOfFuel.
Proof. destruct m as [a| |]; simpl; [by auto|done|done]. Qed.

Lemma deref_fuel r h : Node.deref r h ≠ OutOfFuel.
Proof. unfold Node.deref. by destruct (h !! r). Qed.

Lemma delitem_fuel k d : Dict.delitem k d ≠ OutOfFuel.
Proof.
  induction d as [|[k' v'] d IH]; simpl; [done|].
  destruct (decide (k = k')); [done|]. by apply bind_fuel.
Qed.

Lemma list_remove_fuel x l : list_remove x l ≠ OutOfFuel.
Proof.
  induction l as [|y l IH]; simpl; [done|].
  destruct (decide (x = y)); [done|]. by apply bind_fuel.
Qed.

Lemma remove_fuel node s : remove node s ≠ OutOfFuel.
Proof. unfold remove. apply bind_fuel; [apply list_remove_fuel|done]. Qed.

Lemma unlink_fuel self node s : unlink self node s ≠ OutOfFuel.
Proof.
  unfold unlink, Node.unlink. apply bind_fuel; [|done].
  apply bind_fuel; [apply deref_fuel|]. intros n_self _.
  destruct (negb _); [done|].
  apply bind_fuel; [apply deref_fuel|]. intros n_node _.
  apply bind_fuel; [apply delitem_fuel|]. intros d _.
  apply bind_fuel; [apply deref_fuel|]. intros n_self' _.
  apply bind_fuel; [apply delitem_fuel|done].
Qed.

Lemma has_leaf_child_fuel self h : Node.has_leaf_child self h ≠ OutOfFuel.
Proof.
  unfold Node.has_leaf_child. apply bind_fuel; [apply deref_fuel|].
  intros n _. induction (Dict.keys (Node.edge n)) as [|k ks IH]; simpl; [done|].
  apply bind_fuel; [apply deref_fuel|]. intros n' _. by destruct (decide _).
Qed.

Lemma for_keys_fuel node body fuel di_used di_pos s :
  (∀ k s, body k s ≠ OutOfFuel) → (di_used ≤ di_pos + fuel)%nat →
  for_keys node body fuel di_used di_pos s ≠ OutOfFuel.
Proof.
  intros Hbody. revert di_pos s.
  induction fuel as [|fuel IH]; intros di_pos s Hle; simpl;
    (apply bind_fuel; [apply deref_fuel|]); intros n _;
    (destruct (decide _) as [Hlen|]; [|done]);
    destruct (Dict.keys (Node.edge n) !! di_pos) eqn:Hk; try done.
  - apply lookup_lt_Some in Hk. unfold Dict.keys, Dict.len in *.
    rewrite length_fmap in Hk. lia.
  - apply bind_fuel; [apply Hbody|]. intros s' _. apply IH. lia.
Qed.

Lemma for_keys_of_fuel node body s :
  (∀ k s, body k s ≠ OutOfFuel) → for_keys_of node body s ≠ OutOfFuel.
Proof.
  intros Hbody. unfold for_keys_of. apply bind_fuel; [apply deref_fuel|].
  intros n _. apply for_keys_fuel; [done|lia].
Qed.

Lemma for_live_fuel {St} (cur : St → list ref) (body : ref → St → result St) :
  (∀ x s, body x s ≠ OutOfFuel) →
  (∀ x s s', body x s = Ok s' → (length (cur s') ≤ length (cur s))%nat) →
  ∀ fuel i s, (length (cur s) ≤ i + fuel)%nat →
    for_live cur body fuel i s ≠ OutOfFuel.
Proof.
  intros Hbody Hlen.
  induction fuel as [|fuel IH]; intros i s Hle; simpl;
    destruct (cur s !! i) as [x|] eqn:Hx; try done.
  - apply lookup_lt_Some in Hx. lia.
  - apply bind_fuel; [apply Hbody|]. intros s1 Hs1.
    apply bind_fuel; [|by intros []].
    apply IH. apply Hlen in Hs1. lia.
Qed.

Lemma r1_body_fuel node s : r1_body node s ≠ OutOfFuel.
Proof.
  unfold r1_body. apply bind_fuel; [apply deref_fuel|]. intros n _.
  destruct (decide _); [apply remove_fuel|].
  apply bind_fuel; [apply has_leaf_child_fuel|]. intros [] _; [|done].
  apply bind_fuel; [|intros; apply remove_fuel].
  apply for_keys_of_fuel. intros k s1.
  apply bind_fuel; [apply unlink_fuel|done].
Qed.

Lemma round1_fuel s : round1 s ≠ OutOfFuel.
Proof.
  unfold round1. apply for_live_fuel; [apply r1_body_fuel| |lia].
  intros x s1 s2 [->|H]%r1_body_Ok; [done|].
  by apply remove_only_removes in H as (_&_&_&_&_&?).
Qed.

Lemma remove_nodes_with_leaf_child_fuel s :
  _remove_nodes_with_leaf_child s ≠ OutOfFuel.
Proof.
  unfold _remove_nodes_with_leaf_child.
  pose proof (round1_fuel s). by destruct (round1 s).
Qed.

Lemma r2_body_fuel node st : r2_body node st ≠ OutOfFuel.
Proof.
  destruct st as [s [w r]]. unfold r2_body.
  apply bind_fuel; [apply deref_fuel|]. intros n _.
  destruct (decide _).
  - apply bind_fuel; [apply remove_fuel|done].
  - by destruct (_ <? _)%float.
Qed.

Lemma remove_nodes_in_cycles_fuel s : _remove_nodes_in_cycles s ≠ OutOfFuel.
Proof.
  unfold _remove_nodes_in_cycles, round2, new_Node. simpl.
  apply bind_fuel.
  - apply (for_live_fuel (λ st : State * (float * ref), nodes st.1));
      [apply r2_body_fuel| |simpl; lia].
    intros x st st' H. by apply r2_body_only_removes in H as (_&_&_&_&_&?).
  - intros [[s1 [w r]] vs] _. apply bind_fuel; [apply deref_fuel|done].
Qed.

(** ** Graphs as the constructor leaves them *)

Lemma only_removes_built s s' : only_removes s s' → built s → built s'.
Proof.
  intros (_ & Hh & _ & _ & Hsub & _) [Hflat Hlt]. split; rewrite Hh; auto.
Qed.

Lemma flat_any_leaf h ks :
  (∀ k, k ∈ ks → ∃ n', h !! k = Some n' ∧ Node.edge n' = []) →
  Node.any_leaf ks h = Ok false.
Proof.
  induction ks as [|k ks IH]; intros H; simpl; [done|].
  destruct (H k) as (n' & Hn' & Hnil); [by left|].
  unfold Node.deref. rewrite Hn'. simpl. rewrite Hnil.
  rewrite decide_False by (simpl; lia).
  apply IH. intros k' Hk'. apply H. by right.
Qed.

Lemma flat_has_leaf_child h r n :
  flat h → h !! r = Some n → Node.has_leaf_child r h = Ok false.
Proof.
  intros Hflat Hn. unfold Node.has_leaf_child, Node.deref. rewrite Hn. simpl.
  apply flat_any_leaf. intros k Hk. by eapply Hflat.
Qed.

Lemma flat_alloc h v : flat h → flat (h ++ [Node.mk v []]).
Proof.
  intros Hflat r n k Hn Hk.
  destruct (decide (r < length h)%nat) as [Hlt|Hge].
  - rewrite lookup_app_l in Hn by done.
    destruct (Hflat _ _ _ Hn Hk) as (n' & Hn' & Hnil).
    exists n'. split; [|done].
    rewrite lookup_app_l; [done|]. by eapply lookup_lt_Some.
  - rewrite lookup_app_r in Hn by lia.
    destruct (r - length h)%nat; simpl in Hn; [|done].
    injection Hn as <-. simpl in Hk. by apply elem_of_nil in Hk.
Qed.

Lemma built_r1_body i x s :
  built s → nodes s !! i = Some x →
  ∃ s', r1_body x s = Ok s' ∧ built s' ∧
        (length (nodes s') ≤ length (nodes s))%nat.
Proof.
  intros [Hflat Hlt] Hx.
  assert (x ∈ nodes s) as Hin by (by eapply list_elem_of_lookup_2).
  destruct (lookup_lt_is_Some_2 (heap s) x (Hlt _ Hin)) as (n & Hn).
  unfold r1_body, Node.deref. rewrite Hn. simpl.
  destruct (decide _).
  - apply list_remove_elem in Hin as (l' & Hl').
    exists (set_nodes l' s). unfold remove. rewrite Hl'. simpl.
    assert (only_removes s (set_nodes l' s)) as Hrm.
    { apply (remove_only_removes x). unfold remove. by rewrite Hl'. }
    split; [done|]. split; [by eapply only_removes_built|].
    apply Hrm.
  - rewrite (flat_has_leaf_child _ _ _ Hflat Hn). simpl.
    exists s. by repeat split.
Qed.

Lemma built_round1 s :
  built s → ∃ s' visited, round1 s = Ok (s', visited) ∧ built s'.
Proof.
  intros Hs. unfold round1.
  apply (for_live_total nodes r1_body built); [|done|lia].
  intros i x s1. apply built_r1_body.
Qed.

Lemma built_r2_body i x (st : State * (float * ref)) :
  built st.1 → (st.2.2 < length (heap st.1))%nat →
  nodes st.1 !! i = Some x →
  ∃ st', r2_body x st = Ok st' ∧
         (built st'.1 ∧ (st'.2.2 < length (heap st'.1))%nat) ∧
         (length (nodes st'.1) ≤ length (nodes st.1))%nat.
Proof.
  destruct st as [s [w r]]. simpl. intros [Hflat Hlt] Hr Hx.
  assert (x ∈ nodes s) as Hin by (by eapply list_elem_of_lookup_2).
  destruct (lookup_lt_is_Some_2 (heap s) x (Hlt _ Hin)) as (n & Hn).
  unfold Node.deref. rewrite Hn. simpl.
  destruct (decide _).
  - apply list_remove_elem in Hin as (l' & Hl').
    unfold remove. rewrite Hl'. simpl. eexists. split; [done|]. simpl.
    assert (only_removes s (set_nodes l' s)) as Hrm.
    { apply (remove_only_removes x). unfold remove. by rewrite Hl'. }
    split; [split; [by eapply only_removes_built|done]|]. apply Hrm.
  - destruct (_ <? _)%float; eexists; (split; [done|]); simpl;
      repeat split; auto.
Qed.

Lemma built_remove_nodes_in_cycles s :
  built s → ∃ s', _remove_nodes_in_cycles s = Ok s' ∧ built s'.
Proof.
  intros [Hflat Hlt].
  unfold _remove_nodes_in_cycles, round2, new_Node. simpl.
  set (s0 := set_heap (heap s ++ [Node.mk (-1) []]) s).
  destruct (for_live_total (λ st : State * (float * ref), nodes st.1) r2_body
    (λ st, built st.1 ∧ (st.2.2 < length (heap st.1))%nat))
    with (fuel := length (nodes s)) (i := 0%nat)
         (s := (s0, (0%float, length (heap s))))
    as ([s1 [w r]] & visited & Hloop & [Hb Hr]).
  - intros i x st [Hb Hr]. by apply built_r2_body.
  - simpl. split; [split|].
    + by apply flat_alloc.
    + intros r Hr. subst s0. simpl. rewrite length_app.
      specialize (Hlt _ Hr). lia.
    + rewrite length_app. simpl. lia.
  - simpl. lia.
  - simpl in Hloop. rewrite Hloop. simpl in *.
    destruct (lookup_lt_is_Some_2 (heap s1) r Hr) as (n & Hn).
    unfold Node.deref. rewrite Hn. simpl. eexists. split; [done|].
    apply Hb.
Qed.

(** On such a graph with at least one edge the loop never stops: no
    amount of fuel is enough. *)
Lemma built_prune_diverges fuel s :
  built s → num_edges s ≠ 0 → prune fuel s = OutOfFuel.
Proof.
  revert s. induction fuel as [|fuel IH]; intros s Hb Hne; simpl;
    rewrite decide_False by done; [done|].
  destruct (built_round1 s Hb) as (s1 & vs & H1 & Hb1).
  unfold _remove_nodes_with_leaf_child. rewrite H1. simpl.
  destruct (built_remove_nodes_in_cycles s1 Hb1) as (s2 & H2 & Hb2).
  rewrite H2. simpl. apply IH; [done|].
  apply round1_only_removes in H1 as (_&_&_&H1&_).
  apply remove_nodes_in_cycles_Ok in H2 as (_&_&_&H2&_). congruence.
Qed.

(** ** Construction *)

Lemma init_inv_built m s : init_inv m s → built s.
Proof.
  intros [_ _ Hflat Hnodes]. split; [done|].
  intros r Hr. rewrite Hnodes in Hr. apply elem_of_seq in Hr. lia.
Qed.

Lemma keys_setitem k v d k' :
  k' ∈ Dict.keys (Dict.setitem k v d) → k' = k ∨ k' ∈ Dict.keys d.
Proof.
  unfold Dict.keys. induction d as [|[k0 v0] d IH]; simpl.
  - intros [->|H]%elem_of_cons; [by left|by apply elem_of_nil in H].
  - destruct (decide (k = k0)) as [->|Hne]; simpl; [by right|].
    intros [->|H]%elem_of_cons.
    + right. by left.
    + destruct (IH H); [by left|]. right. by right.
Qed.

Lemma add_node_fresh node s :
  nodes s = seq 0 node → add_node node s = set_nodes (seq 0 (S node)) s.
Proof.
  intros H. unfold add_node. rewrite decide_False.
  - by rewrite H, seq_S.
  - rewrite H. intros Hin%elem_of_seq. lia.
Qed.

Lemma init_col_spec m t row node col s :
  row_inv m node s →
  ∃ s', init_col t row node col s = Ok s' ∧ row_inv m node s' ∧
        num_edges s' =
          num_edges s + (if above m t row col then 1 else 0) ∧
        Node.value <$> heap s' =
          (Node.value <$> heap s) ++
          (if above m t row col then [Z.of_nat col] else []).
Proof.
  intros [[Hm Hdrop Hflat Hnodes] Hnode Hfresh].
  unfold init_col, above. rewrite Hm.
  destruct (t <=? iloc m row col)%float; simpl.
  2:{ exists s. rewrite Z.add_0_r, app_nil_r. by repeat split. }
  destruct (lookup_lt_is_Some_2 _ _ Hnode) as (n & Hn).
  unfold link, Node.link, Node.deref. simpl.
  rewrite lookup_app_l, Hn by done. simpl.
  set (h1 := heap s ++ [Node.mk (Z.of_nat col) []]).
  set (d := Dict.setitem (length (heap s)) (iloc m row col) (Node.edge n)).
  assert (h1 !! node = Some n) as Hn1
    by (subst h1; by rewrite lookup_app_l).
  assert (length (Node.set_edge node d h1) = S (length (heap s))) as Hlen.
  { rewrite set_edge_length. subst h1. rewrite length_app. simpl. lia. }
  eexists. split; [done|]. rewrite add_node_fresh by done.
  split; [split; [split|..]|split]; simpl.
  - done.
  - done.
  - intros r n0 k Hr Hk.
    destruct (decide (r = node)) as [->|Hne].
    + rewrite (set_edge_lookup_eq _ _ _ _ Hn1) in Hr. injection Hr as <-.
      simpl in Hk. subst d. apply keys_setitem in Hk as [->|Hk].
      * exists (Node.mk (Z.of_nat col) []). split; [|done].
        rewrite set_edge_lookup_ne by lia. subst h1.
        by rewrite lookup_app_r, Nat.sub_diag by lia.
      * destruct (Hflat _ _ _ Hn Hk) as (n' & Hn' & Hnil).
        exists n'. split; [|done].
        rewrite set_edge_lookup_ne
          by (intros <-; exact (Hfresh _ _ Hn Hk)).
        subst h1. rewrite lookup_app_l; [done|]. by eapply lookup_lt_Some.
    + rewrite set_edge_lookup_ne in Hr by done. subst h1.
      destruct (decide (r < length (heap s))%nat) as [Hlt|Hge].
      * rewrite lookup_app_l in Hr by done.
        destruct (Hflat _ _ _ Hr Hk) as (n' & Hn' & Hnil).
        exists n'. split; [|done].
        rewrite set_edge_lookup_ne
          by (intros <-; exact (Hfresh _ _ Hr Hk)).
        rewrite lookup_app_l; [done|]. by eapply lookup_lt_Some.
      * rewrite lookup_app_r in Hr by lia.
        destruct (r - length (heap s))%nat; simpl in Hr; [|done].
        injection Hr as <-. simpl in Hk. by apply elem_of_nil in Hk.
  - by rewrite Hlen.
  - lia.
  - intros r n0 Hr.
    destruct (decide (r = node)) as [->|Hne].
    + rewrite (set_edge_lookup_eq _ _ _ _ Hn1) in Hr. injection Hr as <-.
      simpl. subst d. intros [Heq|Hk]%keys_setitem; [lia|].
      by eapply Hfresh.
    + rewrite set_edge_lookup_ne in Hr by done. subst h1.
      destruct (decide (r < length (heap s))%nat) as [Hlt|Hge].
      * rewrite lookup_app_l in Hr by done. by eapply Hfresh.
      * rewrite lookup_app_r in Hr by lia.
        destruct (r - length (heap s))%nat; simpl in Hr; [|done].
        injection Hr as <-. simpl. apply not_elem_of_nil.
  - done.
  - unfold Node.set_edge. rewrite Hn1. rewrite list_fmap_insert. simpl.
    subst h1. rewrite fmap_app. simpl.
    rewrite list_insert_id; [done|].
    rewrite lookup_app_l by (by rewrite length_fmap).
    by rewrite list_lookup_fmap, Hn.
Qed.

Lemma init_cols_spec m t row node cols s :
  row_inv m node s →
  ∃ s', for_each cols (init_col t row node) s = Ok s' ∧ row_inv m node s' ∧
        num_edges s' =
          num_edges s + Z.of_nat (length (List.filter (above m t row) cols)) ∧
        Node.value <$> heap s' =
          (Node.value <$> heap s) ++
          (Z.of_nat <$> List.filter (above m t row) cols).
Proof.
  revert s. induction cols as [|col cols IH]; intros s Hs; simpl.
  - exists s. split; [done|]. split; [done|].
    split; [lia|by rewrite app_nil_r].
  - destruct (init_col_spec m t row node col s Hs) as (s1 & -> & Hs1 & He1 & Hv1).
    simpl. destruct (IH s1 Hs1) as (s2 & -> & Hs2 & He2 & Hv2).
    exists s2. split; [done|]. split; [done|].
    rewrite He2, He1, Hv2, Hv1.
    destruct (above m t row col); simpl.
    + split; [lia|]. by rewrite <- app_assoc.
    + split; [lia|]. by rewrite app_nil_r.
Qed.

Lemma init_row_spec m t n row s :
  init_inv m s →
  ∃ s', init_row t n row s = Ok s' ∧ init_inv m s' ∧
        num_edges s' = num_edges s + Z.of_nat (length (linked m t n row)) ∧
        Node.value <$> heap s' = (Node.value <$> heap s) ++ row_values m t n row.
Proof.
  intros [Hm Hdrop Hflat Hnodes]. unfold init_row, new_Node. simpl.
  rewrite add_node_fresh by done.
  set (s0 := set_nodes _ _).
  destruct (init_cols_spec m t row (length (heap s)) (range (row + 1) n) s0)
    as (s1 & H1 & [Hs1 _ _] & He & Hv).
  - subst s0. split; [split|..]; simpl.
    + done.
    + done.
    + by apply flat_alloc.
    + rewrite length_app. simpl.
      by replace (length (heap s) + 1)%nat with (S (length (heap s))) by lia.
    + rewrite length_app. simpl. lia.
    + intros r n0 Hr Hk.
      destruct (decide (r < length (heap s))%nat) as [Hlt|Hge].
      * rewrite lookup_app_l in Hr by done.
        destruct (Hflat _ _ _ Hr Hk) as (n' & Hn' & _).
        apply lookup_lt_Some in Hn'. lia.
      * rewrite lookup_app_r in Hr by lia.
        destruct (r - length (heap s))%nat; simpl in Hr; [|done].
        injection Hr as <-. simpl in Hk. by apply elem_of_nil in Hk.
  - exists s1. split; [done|]. split; [done|].
    split; [exact He|]. rewrite Hv. subst s0. simpl.
    rewrite fmap_app. simpl. by rewrite <- app_assoc.
Qed.

Lemma init_rows_spec m t n rows s :
  init_inv m s →
  ∃ s', for_each rows (init_row t n) s = Ok s' ∧ init_inv m s' ∧
        num_edges s' =
          num_edges s +
          Z.of_nat (sum_list_with (λ row, length (linked m t n row)) rows) ∧
        Node.value <$> heap s' =
          (Node.value <$> heap s) ++ flat_map (row_values m t n) rows.
Proof.
  revert s. induction rows as [|row rows IH]; intros s Hs; simpl.
  - exists s. split; [done|]. split; [done|].
    split; [lia|by rewrite app_nil_r].
  - destruct (init_row_spec m t n row s Hs) as (s1 & -> & Hs1 & He1 & Hv1).
    simpl. destruct (IH s1 Hs1) as (s2 & -> & Hs2 & He2 & Hv2).
    exists s2. split; [done|]. split; [done|].
    rewrite He2, He1, Hv2, Hv1. split; [lia|].
    by rewrite <- app_assoc.
Qed.

(** The constructor succeeds on every square matrix, and this is the graph
    it returns. *)
Lemma init_spec m t :
  (shape m).1 = (shape m).2 →
  ∃ s, __init__ m t = Ok s ∧ init_inv m s ∧
       num_edges s =
         Z.of_nat (sum_list_with (λ row, length (linked m t (shape m).1 row))
                     (range 0 (shape m).1)) ∧
       Node.value <$> heap s =
         flat_map (row_values m t (shape m).1) (range 0 (shape m).1).
Proof.
  intros Hsq. unfold __init__. rewrite decide_False by (intros H; by apply H).
  destruct (init_rows_spec m t (shape m).1 (range 0 (shape m).1)
              (mk m [] [] [] 0)) as (s & Hs & Hinv & He & Hv).
  - split; simpl; try done.
  - exists s. split; [done|]. split; [done|].
    simpl in He, Hv. split; [lia|done].
Qed.

Lemma init_Ok_inv m t s : __init__ m t = Ok s → init_inv m s.
Proof.
  intros H. unfold __init__ in H.
  destruct (decide ((shape m).1 ≠ (shape m).2)) as [|Hsq]; [discriminate|].
  apply dec_stable in Hsq.
  destruct (init_spec m t Hsq) as (s' & Hs' & Hinv & _).
  unfold __init__ in Hs'. rewrite decide_False in Hs' by (intros H'; by apply H').
  congruence.
Qed.

(** ** Counting the pairs at or above the threshold *)

Lemma filter_pairs_length (g : nat → nat → bool) (l1 l2 : list nat) :
  length (List.filter (λ p, g p.1 p.2) (list_prod l1 l2)) =
  sum_list_with (λ i, length (List.filter (g i) l2)) l1.
Proof.
  induction l1 as [|i l1 IH]; simpl; [done|].
  rewrite List.filter_app, length_app, IH. f_equal.
  clear IH. induction l2 as [|j l2 IH]; simpl; [done|].
  destruct (g i j); simpl; by rewrite IH.
Qed.

Lemma filter_none {A} (f : A → bool) (l : list A) :
  (∀ x, In x l → f x = false) → List.filter f l = [].
Proof.
  induction l as [|x l IH]; intros H; simpl; [done|].
  rewrite (H x) by (by left). apply IH. intros y Hy. apply H. by right.
Qed.

Lemma filter_upper_length (g : nat → bool) (i n : nat) :
  length (List.filter (λ j, (i <? j)%nat && g j) (seq 0 n)) =
  length (List.filter g (range (i + 1) n)).
Proof.
  unfold range. destruct (decide (i + 1 ≤ n)%nat) as [Hle|Hgt].
  - replace n with ((i + 1) + (n - (i + 1)))%nat at 1 by lia.
    rewrite seq_app, List.filter_app, length_app.
    rewrite filter_none.
    + simpl. f_equal. apply List.filter_ext_in. intros j Hj%in_seq.
      destruct (Nat.ltb_spec i j); [done|lia].
    + intros j Hj%in_seq. destruct (Nat.ltb_spec i j); [lia|done].
  - replace (n - (i + 1))%nat with 0%nat by lia. simpl.
    rewrite filter_none; [done|].
    intros j Hj%in_seq. destruct (Nat.ltb_spec i j); [lia|done].
Qed.

Lemma pairs_above_rows m t :
  pairs_above m t =
  sum_list_with (λ row, length (linked m t (shape m).1 row))
    (range 0 (shape m).1).
Proof.
  unfold pairs_above.
  rewrite (filter_pairs_length (λ i j, (i <? j)%nat && above m t i j)).
  replace (range 0 (shape m).1) with (seq 0 (shape m).1)
    by (unfold range; by rewrite Nat.sub_0_r).
  generalize (seq 0 (shape m).1) at 2 3. intros rows. unfold linked.
  induction rows as [|i rows IH]; simpl; [done|].
  rewrite IH. f_equal. apply filter_upper_length.
Qed.

(** ** More on [unlink] *)

(** [unlink] raises [ValueError] exactly when [get] finds nothing or finds a
    weight equal to zero. *)
Lemma unlink_ValueError self node h :
  Node.unlink self node h = Raise ValueError ↔
  ∃ n, h !! self = Some n ∧ truthy (Dict.get node (Node.edge n)) = false.
Proof.
  assert (∀ k d, Dict.delitem k d ≠ Raise ValueError) as Hdel.
  { intros k d. induction d as [|[k' v'] d IH]; simpl; [done|].
    destruct (decide (k = k')); [done|].
    destruct (Dict.delitem k d) as [d'|e|]; simpl; congruence. }
  unfold Node.unlink, Node.deref. split.
  - destruct (h !! self) as [n|]; simpl; [|done].
    destruct (truthy _) eqn:Ht; simpl; [|by eauto].
    destruct (h !! node) as [n'|]; simpl; [|done].
    destruct (Dict.delitem self (Node.edge n')) as [d| |] eqn:Hd; simpl;
      [|intros [= ->]; by apply Hdel in Hd|done].
    destruct (Node.set_edge node d h !! self) as [n''|]; simpl; [|done].
    destruct (Dict.delitem node (Node.edge n'')) as [d'| |] eqn:Hd'; simpl;
      [done|intros [= ->]; by apply Hdel in Hd'|done].
  - intros (n & -> & Ht). simpl. by rewrite Ht.
Qed.

(** ** The values in the node list after construction *)

Lemma omap_lookup_seq {A B} (f : A → B) (h1 h2 : list A) :
  omap (λ r, f <$> (h1 ++ h2) !! r) (seq (length h1) (length h2)) = f <$> h2.
Proof.
  revert h1. induction h2 as [|x h2 IH]; intros h1; simpl; [done|].
  rewrite lookup_app_r, Nat.sub_diag by lia. simpl. f_equal.
  specialize (IH (h1 ++ [x])). rewrite <- app_assoc in IH. simpl in IH.
  rewrite length_app in IH. simpl in IH.
  by replace (length h1 + 1)%nat with (S (length h1)) in IH by lia.
Qed.

Lemma init_node_values m t s :
  __init__ m t = Ok s →
  node_values s = flat_map (row_values m t (shape m).1) (range 0 (shape m).1).
Proof.
  intros H. unfold __init__ in H.
  destruct (decide ((shape m).1 ≠ (shape m).2)) as [|Hsq]; [discriminate|].
  apply dec_stable in Hsq.
  destruct (init_spec m t Hsq) as (s' & Hs' & Hinv & _ & Hv).
  unfold __init__ in Hs'. rewrite decide_False in Hs' by (intros H'; by apply H').
  assert (s' = s) as -> by congruence.
  rewrite <- Hv. unfold node_values. rewrite (inv_nodes _ _ Hinv).
  apply (omap_lookup_seq Node.value [] (heap s)).
Qed.

(** Every feature index has a node, and every edge adds one more node for
    its column: the node list has as many elements as there are features
    and edges together. *)
Lemma init_covers m t s i :
  __init__ m t = Ok s → (i < (shape m).1)%nat → Z.of_nat i ∈ node_values s.
Proof.
  intros Hs Hi. rewrite (init_node_values _ _ _ Hs).
  apply list_elem_of_In, in_flat_map. exists i. split; [|by left].
  apply in_seq. lia.
Qed.

Lemma init_node_values_length m t s :
  __init__ m t = Ok s →
  length (node_values s) = ((shape m).1 + pairs_above m t)%nat.
Proof.
  intros Hs. rewrite (init_node_values _ _ _ Hs), pairs_above_rows.
  replace ((shape m).1) with (length (range 0 (shape m).1)) at 3
    by (unfold range; rewrite length_seq; lia).
  induction (range 0 (shape m).1) as [|row rows IH]; simpl; [done|].
  rewrite length_app, IH, length_fmap. lia.
Qed.

(** ** The log of rounds *)

Lemma prune_traced_result fuel s : (prune_traced fuel s).2 = prune fuel s.
Proof.
  revert s. induction fuel as [|fuel IH]; intros s; simpl;
    destruct (decide (num_edges s = 0)); try done.
  destruct (_remove_nodes_with_leaf_child s) as [s1| |]; simpl; try done.
  destruct (_remove_nodes_in_cycles s1) as [s2| |]; simpl; try done.
  rewrite <- IH. by destruct (prune_traced fuel s2).
Qed.

(** ** When the loop returns *)

Lemma prune_steps_keeps_matrix k s s' :
  prune_steps k s = Ok s' → corr_matrix s' = corr_matrix s.
Proof.
  revert s. induction k as [|k IH]; intros s H; simpl in H; [by inv_ok|].
  destruct (decide (num_edges s = 0)); [by inv_ok|].
  apply bind_Ok in H as (s1 & H1 & H).
  apply bind_Ok in H as (s2 & H2 & H).
  apply remove_nodes_with_leaf_child_only_removes in H1 as (H1 & _).
  apply remove_nodes_in_cycles_Ok in H2 as (H2 & _).
  apply IH in H. congruence.
Qed.

(** A run that returns is a run cut after as many iterations as it had
    fuel. *)
Lemma prune_steps_of_prune fuel s s' :
  prune fuel s = Ok s' → prune_steps fuel s = Ok s'.
Proof.
  revert s. induction fuel as [|fuel IH]; intros s H; simpl in *;
    destruct (decide (num_edges s = 0)); try done.
  apply bind_Ok in H as (s1 & H1 & H).
  apply bind_Ok in H as (s2 & H2 & H).
  rewrite H1. simpl. rewrite H2. simpl. by apply IH.
Qed.

(** A constructed graph is pruned in finite time exactly when it has no
    edge at all. *)
Lemma prune_diverges_when_linked m t s :
  __init__ m t = Ok s → num_edges s ≠ 0 → ∀ fuel, prune fuel s = OutOfFuel.
Proof.
  intros Hs Hne fuel. apply built_prune_diverges; [|done].
  eapply init_inv_built. by eapply init_Ok_inv.
Qed.

(** ** Round 2 on three features *)

(** With features 1 and 2 linked at 0.9 and feature 0 linked to both at
    0.3, Round 2 (after Round 1, as in the loop) visits the nodes at
    references 0, 2 and 5 of the list [0; 2; 3; 5] and records feature 0,
    whose weights sum to 0.6: the node at reference 3, of weight 0.9,
    follows a node the scan removed and is passed over. *)
Example round2_skips_on_three :
  (s ← __init__ corr_three 0.25%float;
   s ← _remove_nodes_with_leaf_child s;
   '(_, _, visited) ← round2 s;
   s' ← _remove_nodes_in_cycles s;
   Ok (nodes s, visited, to_drop s',
       Node.get_overall_weight 0 (heap s),
       Node.get_overall_weight 3 (heap s))) =
  Ok ([0; 2; 3; 5]%nat, [0; 2; 5]%nat, [0],
      Ok (0.3 + 0.3)%float, Ok 0.9%float).
Proof. by vm_compute. Qed.

(** * The claims *)

(** C1.  Evaluation at a failing input: on the graph built from two
    features correlated at 0.95 with threshold 0.9 (one edge), [prune]
    does not terminate, whatever the number of iterations allowed; after
    three iterations of its loop the edge count is still 1 and the drop
    list is [0; 0; 0]. *)
Theorem prune_diverges_on_pair :
  (∀ fuel, (s ← __init__ corr_pair 0.9%float; prune fuel s) = OutOfFuel) ∧
  (s ← __init__ corr_pair 0.9%float;
   s' ← prune_steps 3 s;
   Ok (num_edges s', to_drop s')) = Ok (1, [0; 0; 0]).
Proof.
  split; [|by vm_compute]. intros fuel.
  destruct (init_spec corr_pair 0.9%float eq_refl) as (s & Hs & _ & He & _).
  rewrite Hs. simpl.
  apply (prune_diverges_when_linked _ _ _ Hs).
  rewrite He. by vm_compute.
Qed.

(** C2.  Evaluation at a failing input: in the first iteration of [prune]
    on the graph built from two features correlated at 0.95, Round 2 is
    entered with edge count 1; it appends the value 0 of the heaviest node
    to the drop list and returns with the edge count still 1, that node
    (reference 0) still in the node list and its adjacency still holding
    its neighbour. *)
Theorem round2_keeps_edges_on_pair :
  (s ← __init__ corr_pair 0.9%float;
   s ← _remove_nodes_with_leaf_child s;
   s' ← _remove_nodes_in_cycles s;
   Ok (num_edges s, to_drop s', num_edges s', nodes s',
       Node.edge <$> heap s' !! 0%nat)) =
  Ok (1, [0], 1, [0%nat], Some [(1%nat, 0.95%float)]).
Proof. by vm_compute. Qed.

(** C3.  Evaluation at a failing input: after [a.link(b, 0.95)] on two new
    nodes the adjacency of [a] holds [b] with weight 0.95 and the adjacency
    of [b] does not hold [a]; the same is true of the graph the constructor
    builds from two features correlated at 0.95. *)
Theorem link_is_one_way :
  (h ← once_linked; Ok (weight h 0 1, weight h 1 0)) =
    Ok (Some 0.95%float, None) ∧
  (s ← __init__ corr_pair 0.9%float;
   Ok (weight (heap s) 0 1, weight (heap s) 1 0)) =
    Ok (Some 0.95%float, None).
Proof. split; by vm_compute. Qed.

(** C4.  Evaluation at a failing input: the node list built from two
    features correlated at 0.95 holds three nodes, two of them with
    feature index 1. *)
Theorem init_duplicates_on_pair :
  node_values <$> __init__ corr_pair 0.9%float = Ok [0; 1; 1].
Proof. by vm_compute. Qed.

(** C5.  For every square matrix and threshold the constructor returns a
    graph whose [num_edges] is the number of pairs (i, j), i < j, whose
    entry at (i, j) is at least the threshold. *)
Theorem init_num_edges m t :
  (shape m).1 = (shape m).2 →
  ∃ s, __init__ m t = Ok s ∧ num_edges s = Z.of_nat (pairs_above m t).
Proof.
  intros Hsq. destruct (init_spec m t Hsq) as (s & Hs & _ & He & _).
  exists s. split; [done|]. by rewrite pairs_above_rows.
Qed.

Lemma init_num_edges_witness :
  ∃ s, __init__ corr_pair 0.9%float = Ok s ∧
       num_edges s = Z.of_nat (pairs_above corr_pair 0.9%float).
Proof. apply (init_num_edges corr_pair 0.9%float). reflexivity. Defined.


(** C7.  Evaluation at a failing input: on the graph built from two
    features correlated at 0.95 the node list is [0; 1; 2] when Round 1
    begins; the pass visits 0 and 1 only, and node 2, never removed, is
    still in the list when the pass ends. *)
Theorem round1_skips_on_pair :
  (s ← __init__ corr_pair 0.9%float;
   '(s', visited) ← round1 s;
   Ok (nodes s, visited, nodes s')) =
  Ok ([0; 1; 2]%nat, [0; 1]%nat, [0; 2]%nat).
Proof. by vm_compute. Qed.

(** C8.  In the log of any run of [prune], from any state, an entry for
    Round 2 comes right after an entry for a Round 1 that returned with
    [num_edges] as it was when that round began. *)
Theorem round2_only_after_idle_round1 fuel s i before after :
  (prune_traced fuel s).1 !! i = Some (Round2, before, after) →
  ∃ j, i = S j ∧
       (prune_traced fuel s).1 !! j = Some (Round1, before, Some before).
Proof.
  revert s i. induction fuel as [|fuel IH]; intros s i; simpl;
    destruct (decide (num_edges s = 0)); simpl; try done.
  destruct (_remove_nodes_with_leaf_child s) as [s1| |] eqn:H1; simpl.
  - apply remove_nodes_with_leaf_child_only_removes in H1 as (_&_&_&H1&_).
    destruct (_remove_nodes_in_cycles s1) as [s2| |] eqn:H2.
    + destruct (prune_traced fuel s2) as [log r] eqn:Hlog. simpl.
      destruct i as [|[|i]]; simpl.
      * done.
      * intros [= <- _]. exists 0%nat. by rewrite H1.
      * intros Hi. specialize (IH s2 i). rewrite Hlog in IH.
        destruct (IH Hi) as (j & -> & Hj). by exists (S (S j)).
    + destruct i as [|[|i]]; simpl; try done.
      intros [= <- _]. exists 0%nat. by rewrite H1.
    + destruct i as [|[|i]]; simpl; try done.
      intros [= <- _]. exists 0%nat. by rewrite H1.
  - by destruct i.
  - by destruct i.
Qed.

Lemma round2_only_after_idle_round1_witness :
  ∃ s, __init__ corr_pair 0.9%float = Ok s ∧
       (prune_traced 1 s).1 !! 1%nat = Some (Round2, 1, Some 1) ∧
       ∃ j, 1%nat = S j ∧
            (prune_traced 1 s).1 !! j = Some (Round1, 1, Some 1).
Proof.
  eexists. split; [reflexivity|]. split; [reflexivity|].
  apply (round2_only_after_idle_round1 1 _ 1 1 (Some 1)). reflexivity.
Defined.

(** C9.  Evaluation at a failing input: with two nodes each holding the
    other in its adjacency under weight 0.0, [unlink] raises the error it
    reserves for a node that is not a neighbour. *)
Theorem unlink_zero_weight_raises :
  (h ← zero_linked; Ok (weight h 0 1, weight h 1 0)) =
    Ok (Some 0%float, Some 0%float) ∧
  (h ← zero_linked; Node.unlink 0 1 h) = Raise ValueError.
Proof. split; by vm_compute. Qed.

(** C10.  The matrix held by the state the constructor returns is the
    matrix it was given, and so is the matrix held by the state [prune]
    returns, as well as by the state reached after any number of iterations
    of its loop. *)
Theorem matrix_untouched m t s :
  __init__ m t = Ok s →
  corr_matrix s = m ∧
  ∀ k s', prune k s = Ok s' ∨ prune_steps k s = Ok s' → corr_matrix s' = m.
Proof.
  intros Hs. pose proof (inv_matrix _ _ (init_Ok_inv _ _ _ Hs)) as Hm.
  split; [done|]. intros k s' [H%prune_steps_of_prune|H];
    apply prune_steps_keeps_matrix in H; congruence.
Qed.

Lemma matrix_untouched_witness :
  ∃ s, __init__ corr_pair 0.9%float = Ok s ∧
       corr_matrix s = corr_pair ∧
       ∀ k s', prune k s = Ok s' ∨ prune_steps k s = Ok s' →
               corr_matrix s' = corr_pair.
Proof.
  eexists. split; [reflexivity|].
  apply (matrix_untouched corr_pair 0.9%float). reflexivity.
Defined.

(** * Further properties of the code *)

(** ** Dict entries *)

Lemma get_None k d : Dict.get k d = None ↔ k ∉ Dict.keys d.
Proof.
  unfold Dict.keys. induction d as [|[k' v'] d IH]; simpl.
  - split; [intros _; apply not_elem_of_nil|done].
  - rewrite not_elem_of_cons. destruct (decide (k = k')); [|tauto].
    split; [done|]. by intros [? _].
Qed.

Lemma get_setitem_eq k v d : Dict.get k (Dict.setitem k v d) = Some v.
Proof.
  induction d as [|[k' v'] d IH]; simpl.
  - by rewrite decide_True.
  - destruct (decide (k = k')) as [->|Hne]; simpl.
    + by rewrite decide_True.
    + by rewrite decide_False.
Qed.

Lemma get_setitem_ne k k' v d :
  k' ≠ k → Dict.get k' (Dict.setitem k v d) = Dict.get k' d.
Proof.
  intros Hne. induction d as [|[k0 v0] d IH]; simpl.
  - by rewrite decide_False.
  - destruct (decide (k = k0)) as [->|Hne0]; simpl.
    + by rewrite !decide_False.
    + by rewrite IH.
Qed.

Lemma setitem_fresh k v d : k ∉ Dict.keys d → Dict.setitem k v d = d ++ [(k, v)].
Proof.
  unfold Dict.keys. induction d as [|[k' v'] d IH]; simpl; [done|].
  rewrite not_elem_of_cons. intros [Hne Hk].
  rewrite decide_False by done. by rewrite IH.
Qed.

Lemma setitem_length k v d :
  length (Dict.setitem k v d) =
  if decide (k ∈ Dict.keys d) then length d else S (length d).
Proof.
  destruct (decide (k ∈ Dict.keys d)) as [Hin|Hout].
  - unfold Dict.keys in Hin. induction d as [|[k' v'] d IH]; simpl.
    + by apply elem_of_nil in Hin.
    + destruct (decide (k = k')); [done|]. simpl. f_equal. apply IH.
      simpl in Hin. by apply elem_of_cons in Hin as [?|?].
  - rewrite setitem_fresh, length_app by done. simpl. lia.
Qed.

Lemma get_app_fresh k v d : k ∉ Dict.keys d → Dict.get k (d ++ [(k, v)]) = Some v.
Proof. intros H. by rewrite <- setitem_fresh, get_setitem_eq. Qed.

Lemma delitem_app_fresh k v d :
  k ∉ Dict.keys d → Dict.delitem k (d ++ [(k, v)]) = Ok d.
Proof.
  unfold Dict.keys. induction d as [|[k' v'] d IH]; simpl.
  - by rewrite decide_True.
  - rewrite not_elem_of_cons. intros [Hne Hk].
    rewrite decide_False by done. by rewrite IH.
Qed.

Lemma delitem_absent k d : k ∉ Dict.keys d → Dict.delitem k d = Raise KeyError.
Proof.
  unfold Dict.keys. induction d as [|[k' v'] d IH]; simpl; [done|].
  rewrite not_elem_of_cons. intros [Hne Hk].
  rewrite decide_False by done. by rewrite IH.
Qed.

(** ** Heap cells *)

Lemma set_edge_lookup r d h n i :
  h !! r = Some n →
  Node.set_edge r d h !! i =
  if decide (i = r) then Some (Node.mk (Node.value n) d) else h !! i.
Proof.
  intros Hn. destruct (decide (i = r)) as [->|Hne].
  - by apply set_edge_lookup_eq.
  - by apply set_edge_lookup_ne.
Qed.

Lemma link_Ok self node pcc h n :
  h !! self = Some n →
  Node.link self node pcc h =
  Ok (Node.set_edge self (Dict.setitem node pcc (Node.edge n)) h).
Proof. intros Hn. unfold Node.link, Node.deref. by rewrite Hn. Qed.

(** ** [link] and [unlink] *)

(** X1.  [a.link(b, w)] on an existing node returns; afterwards the
    adjacency of [a] holds [b] under weight [w] (replacing an earlier weight,
    never adding a second entry), its other entries are as before, and no
    other node has changed: the adjacency of [b] in particular. *)
Theorem link_writes_one_entry h a b w na :
  h !! a = Some na →
  ∃ h', Node.link a b w h = Ok h' ∧
        weight h' a b = Some w ∧
        (∀ c, c ≠ b → weight h' a c = weight h a c) ∧
        (∀ a', a' ≠ a → h' !! a' = h !! a') ∧
        ∃ na', h' !! a = Some na' ∧ Node.value na' = Node.value na ∧
               length (Node.edge na') =
               if decide (b ∈ Dict.keys (Node.edge na))
               then length (Node.edge na) else S (length (Node.edge na)).
Proof.
  intros Ha. eexists. split; [by apply link_Ok|].
  unfold weight.
  rewrite (set_edge_lookup_eq _ _ _ _ Ha). simpl.
  split; [apply get_setitem_eq|].
  split; [intros c Hc; rewrite Ha; simpl; by apply get_setitem_ne|].
  split; [intros a' Ha'; by apply set_edge_lookup_ne|].
  eexists. split; [done|]. split; [done|]. simpl. apply setitem_length.
Qed.

Lemma link_writes_one_entry_witness :
  ∃ h', Node.link 0 1 0.95%float [Node.mk 0 []; Node.mk 1 []] = Ok h' ∧
        weight h' 0 1 = Some 0.95%float ∧
        (∀ c, c ≠ 1%nat →
           weight h' 0 c = weight [Node.mk 0 []; Node.mk 1 []] 0 c) ∧
        (∀ a', a' ≠ 0%nat →
           h' !! a' = [Node.mk 0 []; Node.mk 1 []] !! a') ∧
        ∃ na', h' !! 0%nat = Some na' ∧ Node.value na' = 0 ∧
               length (Node.edge na') = 1%nat.
Proof.
  apply (link_writes_one_entry [Node.mk 0 []; Node.mk 1 []] 0 1 0.95%float
           (Node.mk 0 [])).
  reflexivity.
Defined.

(** X2.  Linking two distinct nodes in both directions with a non-zero
    weight and then unlinking them gives back the heap as it was, when they
    were not neighbours before. *)
Theorem link_both_then_unlink h a b w na nb :
  a ≠ b → h !! a = Some na → h !! b = Some nb →
  b ∉ Dict.keys (Node.edge na) → a ∉ Dict.keys (Node.edge nb) →
  (w =? 0)%float = false →
  (h1 ← Node.link a b w h; h2 ← Node.link b a w h1; Node.unlink a b h2) = Ok h.
Proof.
  intros Hab Ha Hb Hna Hnb Hw.
  rewrite (link_Ok _ _ _ _ _ Ha), setitem_fresh by done. simpl.
  set (h1 := Node.set_edge a _ h).
  assert (h1 !! a = Some (Node.mk (Node.value na) (Node.edge na ++ [(b, w)])))
    as Ha1 by (by apply set_edge_lookup_eq).
  assert (h1 !! b = Some nb) as Hb1
    by (subst h1; by rewrite set_edge_lookup_ne).
  rewrite (link_Ok _ _ _ _ _ Hb1), setitem_fresh by done. simpl.
  set (h2 := Node.set_edge b _ h1).
  assert (h2 !! b = Some (Node.mk (Node.value nb) (Node.edge nb ++ [(a, w)])))
    as Hb2 by (by apply set_edge_lookup_eq).
  assert (h2 !! a = Some (Node.mk (Node.value na) (Node.edge na ++ [(b, w)])))
    as Ha2 by (subst h2; by rewrite set_edge_lookup_ne).
  unfold Node.unlink, Node.deref. rewrite Ha2. simpl.
  rewrite get_app_fresh by done. simpl. rewrite Hw. simpl.
  rewrite Hb2. simpl. rewrite delitem_app_fresh by done. simpl.
  set (h3 := Node.set_edge b (Node.edge nb) h2).
  assert (h3 !! a = Some (Node.mk (Node.value na) (Node.edge na ++ [(b, w)])))
    as Ha3 by (subst h3; by rewrite set_edge_lookup_ne).
  rewrite Ha3. simpl. rewrite delitem_app_fresh by done. simpl. f_equal.
  apply list_eq. intros i.
  rewrite (set_edge_lookup _ _ _ _ _ Ha3). simpl.
  destruct (decide (i = a)) as [->|Hia]; [rewrite Ha; by destruct na|].
  subst h3. rewrite (set_edge_lookup _ _ _ _ _ Hb2). simpl.
  destruct (decide (i = b)) as [->|Hib]; [rewrite Hb; by destruct nb|].
  subst h2 h1. by rewrite !set_edge_lookup_ne.
Qed.

Lemma link_both_then_unlink_witness :
  (h1 ← Node.link 0 1 0.95%float [Node.mk 0 []; Node.mk 1 []];
   h2 ← Node.link 1 0 0.95%float h1;
   Node.unlink 0 1 h2) = Ok [Node.mk 0 []; Node.mk 1 []].
Proof.
  apply (link_both_then_unlink [Node.mk 0 []; Node.mk 1 []] 0 1 0.95%float
           (Node.mk 0 []) (Node.mk 1 []));
    try reflexivity; try (intros ?; discriminate); apply not_elem_of_nil.
Defined.

(** X3.  [unlink] cannot undo what a single [link] did: after
    [a.link(b, w)] with a non-zero weight, where [a] is not in the
    adjacency of [b], [a.unlink(b)] raises [KeyError] (from
    [del node.edge[self]]). *)
Theorem link_then_unlink_raises h a b w na nb :
  a ≠ b → h !! a = Some na → h !! b = Some nb →
  a ∉ Dict.keys (Node.edge nb) → (w =? 0)%float = false →
  (h1 ← Node.link a b w h; Node.unlink a b h1) = Raise KeyError.
Proof.
  intros Hab Ha Hb Hnb Hw. rewrite (link_Ok _ _ _ _ _ Ha). simpl.
  unfold Node.unlink, Node.deref.
  rewrite (set_edge_lookup_eq _ _ _ _ Ha). simpl.
  rewrite get_setitem_eq. simpl. rewrite Hw. simpl.
  rewrite set_edge_lookup_ne, Hb by done. simpl.
  by rewrite delitem_absent.
Qed.

Lemma link_then_unlink_raises_witness :
  (h1 ← Node.link 0 1 0.95%float [Node.mk 0 []; Node.mk 1 []];
   Node.unlink 0 1 h1) = Raise KeyError.
Proof.
  apply (link_then_unlink_raises [Node.mk 0 []; Node.mk 1 []] 0 1 0.95%float
           (Node.mk 0 []) (Node.mk 1 []));
    try reflexivity; try (intros ?; discriminate); apply not_elem_of_nil.
Defined.

Lemma delitem_present k d : k ∈ Dict.keys d → ∃ d', Dict.delitem k d = Ok d'.
Proof.
  unfold Dict.keys. induction d as [|[k' v'] d IH]; simpl.
  - by intros ?%elem_of_nil.
  - destruct (decide (k = k')); [by eauto|].
    intros [?|Hk]%elem_of_cons; [done|].
    destruct (IH Hk) as (d' & ->). by eauto.
Qed.

Lemma truthy_key k d : truthy (Dict.get k d) = true → k ∈ Dict.keys d.
Proof.
  intros H. destruct (decide (k ∈ Dict.keys d)) as [|Hout]; [done|].
  apply get_None in Hout. by rewrite Hout in H.
Qed.

(** X4.  The three outcomes of [self.unlink(node)] on two distinct nodes:
    [ValueError] when [self.edge.get(node)] is missing or zero; otherwise
    [KeyError] when [self] is not in the adjacency of [node]; otherwise it
    returns, each of the two adjacencies is one entry shorter and no other
    node has changed. *)
Theorem unlink_outcome h self node ns nn :
  self ≠ node → h !! self = Some ns → h !! node = Some nn →
  match Node.unlink self node h with
  | Raise ValueError => truthy (Dict.get node (Node.edge ns)) = false
  | Raise KeyError =>
      truthy (Dict.get node (Node.edge ns)) = true ∧
      self ∉ Dict.keys (Node.edge nn)
  | Ok h' =>
      truthy (Dict.get node (Node.edge ns)) = true ∧
      self ∈ Dict.keys (Node.edge nn) ∧
      (∀ r, r ≠ self → r ≠ node → h' !! r = h !! r) ∧
      ∃ ns' nn', h' !! self = Some ns' ∧ h' !! node = Some nn' ∧
                 Node.value ns' = Node.value ns ∧
                 Node.value nn' = Node.value nn ∧
                 length (Node.edge ns) = S (length (Node.edge ns')) ∧
                 length (Node.edge nn) = S (length (Node.edge nn'))
  | _ => False
  end.
Proof.
  intros Hne Hs Hn. unfold Node.unlink, Node.deref. rewrite Hs. simpl.
  destruct (truthy (Dict.get node (Node.edge ns))) eqn:Ht; simpl; [|done].
  rewrite Hn. simpl.
  destruct (decide (self ∈ Dict.keys (Node.edge nn))) as [Hin|Hout].
  2:{ by rewrite delitem_absent. }
  destruct (delitem_present _ _ Hin) as (d & Hd). rewrite Hd. simpl.
  rewrite set_edge_lookup_ne, Hs by done. simpl.
  destruct (delitem_present _ _ (truthy_key _ _ Ht)) as (d' & Hd').
  rewrite Hd'. simpl.
  assert (Node.set_edge node d h !! self = Some ns) as Hs'
    by (by rewrite set_edge_lookup_ne).
  split; [done|]. split; [done|]. split.
  - intros r Hr1 Hr2. by rewrite !set_edge_lookup_ne.
  - eexists _, _. split; [by apply set_edge_lookup_eq|].
    split; [rewrite set_edge_lookup_ne by done; by apply set_edge_lookup_eq|].
    simpl. split; [done|]. split; [done|].
    split; [exact (delitem_length _ _ _ Hd')|exact (delitem_length _ _ _ Hd)].
Qed.

Lemma unlink_outcome_witness :
  match Node.unlink 0 1 [Node.mk 0 [(1%nat, 0.95%float)]; Node.mk 1 []] with
  | Raise ValueError =>
      truthy (Dict.get 1 [(1%nat, 0.95%float)]) = false
  | Raise KeyError =>
      truthy (Dict.get 1 [(1%nat, 0.95%float)]) = true ∧ 0%nat ∉ Dict.keys []
  | Ok h' =>
      truthy (Dict.get 1 [(1%nat, 0.95%float)]) = true ∧
      0%nat ∈ Dict.keys [] ∧
      (∀ r, r ≠ 0%nat → r ≠ 1%nat →
         h' !! r = [Node.mk 0 [(1%nat, 0.95%float)]; Node.mk 1 []] !! r) ∧
      ∃ ns' nn', h' !! 0%nat = Some ns' ∧ h' !! 1%nat = Some nn' ∧
                 Node.value ns' = 0 ∧ Node.value nn' = 1 ∧
                 1%nat = S (length (Node.edge ns')) ∧
                 0%nat = S (length (Node.edge nn'))
  | _ => False
  end.
Proof.
  apply (unlink_outcome [Node.mk 0 [(1%nat, 0.95%float)]; Node.mk 1 []] 0 1
           (Node.mk 0 [(1%nat, 0.95%float)]) (Node.mk 1 []));
    [intros ?; discriminate|reflexivity|reflexivity].
Defined.

(** ** [_remove_node] *)

Lemma list_remove_Ok_elem x l l' : list_remove x l = Ok l' → x ∈ l.
Proof.
  revert l'. induction l as [|y l IH]; intros l' H; simpl in H; [done|].
  destruct (decide (x = y)) as [->|]; [by left|].
  inv_ok. right. by eapply IH.
Qed.

(** X5.  [_remove_node] returns only for a listed node with no neighbour at
    all, and then it has done no more than [self.nodes.remove(node)]: with
    any neighbour, the loop that unlinks them changes the dict it iterates
    and the call ends in an exception. *)
Theorem remove_node_Ok_iff node s s' :
  _remove_node node s = Ok s' ↔
  remove node s = Ok s' ∧ ∃ n, heap s !! node = Some n ∧ Node.edge n = [].
Proof.
  unfold _remove_node. split.
  - destruct (decide (node ∉ nodes s)) as [|Hin]; [done|]. intros H.
    apply bind_Ok in H as (s1 & Hs1 & H).
    apply for_keys_of_unlink_Ok in H as (-> & n & Hn & Hnil).
    + split; [done|]. exists n. split; [|done].
      unfold remove in Hs1. by inv_ok.
    + intros k s2 s3 Hk. unfold unlink in Hk. by inv_ok.
  - intros (Hrm & n & Hn & Hnil).
    rewrite decide_False.
    2:{ intros Hout. apply Hout. unfold remove in Hrm. inv_ok.
        by eapply list_remove_Ok_elem. }
    rewrite Hrm. simpl.
    assert (heap s' = heap s) as Hh by (unfold remove in Hrm; by inv_ok).
    unfold for_keys_of, Node.deref. rewrite Hh, Hn. simpl.
    rewrite Hnil. simpl. unfold Node.deref. rewrite Hh, Hn. simpl.
    by rewrite Hnil.
Qed.

(** ** What the rounds remove *)

Lemma list_remove_sublist x l l' : list_remove x l = Ok l' → l' `sublist_of` l.
Proof.
  revert l'. induction l as [|y l IH]; intros l' H; simpl in H; [done|].
  destruct (decide (x = y)).
  - inv_ok. by apply sublist_cons.
  - inv_ok. apply sublist_skip. by apply IH.
Qed.

Lemma list_remove_other x y l l' :
  list_remove x l = Ok l' → y ∈ l → y ≠ x → y ∈ l'.
Proof.
  revert l'. induction l as [|z l IH]; intros l' H Hy Hne; simpl in H; [done|].
  destruct (decide (x = z)) as [->|].
  - inv_ok. by apply elem_of_cons in Hy as [?|?].
  - inv_ok. apply elem_of_cons in Hy as [->|Hy]; [by left|].
    right. by eapply IH.
Qed.

Lemma sheds_isolated_refl s : sheds_isolated s s.
Proof. split; [done|]. split; [done|]. by left. Qed.

Lemma sheds_isolated_trans s1 s2 s3 :
  sheds_isolated s1 s2 → sheds_isolated s2 s3 → sheds_isolated s1 s3.
Proof.
  intros (Hh12 & Hsub12 & H12) (Hh23 & Hsub23 & H23).
  split; [congruence|]. split; [by etrans|].
  intros r Hr. destruct (H12 r Hr) as [Hr2|]; [|by right].
  rewrite <- Hh12. by apply H23.
Qed.

Lemma remove_sheds_isolated node s s' n :
  heap s !! node = Some n → Node.edge n = [] →
  remove node s = Ok s' → sheds_isolated s s'.
Proof.
  intros Hn Hnil H. unfold remove in H. inv_ok. simpl.
  split; [done|]. split; [by eapply list_remove_sublist|].
  intros r Hr. destruct (decide (r = node)) as [->|Hne]; [by eauto|].
  left. by eapply list_remove_other.
Qed.

Lemma r1_body_sheds_isolated node s s' :
  r1_body node s = Ok s' → sheds_isolated s s'.
Proof.
  intros H. pose proof H as [->|Hrm]%r1_body_Ok;
    [apply sheds_isolated_refl|].
  unfold r1_body in H.
  apply bind_Ok in H as (n & Hn & H). apply deref_Ok in Hn.
  destruct (decide (Dict.len (Node.edge n) = 0%nat)) as [Hlen|Hne].
  - eapply remove_sheds_isolated; [done| |done].
    by destruct (Node.edge n).
  - apply bind_Ok in H as ([] & _ & H); [|inv_ok; apply sheds_isolated_refl].
    apply bind_Ok in H as (s1 & Hs1 & _).
    apply for_keys_of_unlink_Ok in Hs1 as (_ & n' & Hn' & Hnil).
    + simpl in Hn'. rewrite Hn in Hn'. injection Hn' as <-.
      by rewrite Hnil in Hne.
    + intros k s2 s3 Hk. apply bind_Ok in Hk as (s4 & Hk & ?). inv_ok.
      unfold unlink in Hk. by inv_ok.
Qed.

Lemma r2_body_sheds_isolated node st st' :
  r2_body node st = Ok st' → sheds_isolated st.1 st'.1.
Proof.
  destruct st as [s [w r]]. unfold r2_body. simpl. intros H.
  apply bind_Ok in H as (n & Hn & H). apply deref_Ok in Hn.
  destruct (decide _) as [Hlen|].
  - apply bind_Ok in H as (s1 & Hs1 & H). inv_ok. simpl.
    eapply remove_sheds_isolated; [done| |done]. by destruct (Node.edge n).
  - destruct (_ <? _)%float; inv_ok; apply sheds_isolated_refl.
Qed.

Lemma round1_sheds_isolated s s' :
  _remove_nodes_with_leaf_child s = Ok s' → sheds_isolated s s'.
Proof.
  unfold _remove_nodes_with_leaf_child. intros H.
  apply fmap_Ok in H as ([s1 vs] & H & ->). unfold round1 in H.
  apply (for_live_rel nodes r1_body sheds_isolated) in H; [done|..].
  - apply sheds_isolated_refl.
  - apply sheds_isolated_trans.
  - apply r1_body_sheds_isolated.
Qed.

(** X6.  When Round 1 returns it has appended nothing to the drop list and
    changed no adjacency and no edge count: all it has done is take nodes
    without neighbours out of [self.nodes], whose other elements keep
    their order. *)
Theorem round1_returns_idle s s' :
  _remove_nodes_with_leaf_child s = Ok s' →
  to_drop s' = to_drop s ∧ num_edges s' = num_edges s ∧
  heap s' = heap s ∧ nodes s' `sublist_of` nodes s ∧
  ∀ r, r ∈ nodes s →
    r ∈ nodes s' ∨ ∃ n, heap s !! r = Some n ∧ Node.edge n = [].
Proof.
  intros H.
  pose proof (remove_nodes_with_leaf_child_only_removes _ _ H)
    as (_ & _ & Hd & He & _).
  split; [done|]. split; [done|]. by apply round1_sheds_isolated.
Qed.

Lemma round1_returns_idle_witness :
  ∃ s s', __init__ corr_pair 0.9%float = Ok s ∧
    _remove_nodes_with_leaf_child s = Ok s' ∧
    to_drop s' = to_drop s ∧ num_edges s' = num_edges s ∧
    heap s' = heap s ∧ nodes s' `sublist_of` nodes s ∧
    ∀ r, r ∈ nodes s →
      r ∈ nodes s' ∨ ∃ n, heap s !! r = Some n ∧ Node.edge n = [].
Proof.
  eexists _, _. split; [reflexivity|]. split; [reflexivity|].
  apply round1_returns_idle. reflexivity.
Defined.

Lemma for_live_raise {St} (cur : St → list ref) (body : ref → St → result St)
    fuel x s e :
  cur s !! 0%nat = Some x → body x s = Raise e →
  for_live cur body (S fuel) 0 s = Raise e.
Proof. intros Hx Hb. simpl. by rewrite Hx, Hb. Qed.

(** X7.  When the first node of [self.nodes] has a leaf child, the call
    of Round 1 does not return: it raises an exception (the loop that
    unlinks the neighbours changes the dict it iterates, or [unlink]
    itself fails).  This is about the outcome of the call only; what the
    call has written to the graph by then is not part of a raised
    result. *)
Theorem round1_raises_on_leaf_child s node :
  nodes s !! 0%nat = Some node →
  Node.has_leaf_child node (heap s) = Ok true →
  ∃ e, _remove_nodes_with_leaf_child s = Raise e.
Proof.
  intros Hx Hleaf.
  assert (∃ e, r1_body node s = Raise e) as [e He].
  { unfold r1_body. pose proof Hleaf as Hleaf'.
    unfold Node.has_leaf_child in Hleaf'.
    apply bind_Ok in Hleaf' as (n & Hn & Hany). rewrite Hn. simpl.
    apply deref_Ok in Hn.
    destruct (decide (Dict.len (Node.edge n) = 0%nat)) as [Hlen|Hne].
    { destruct (Node.edge n); [discriminate Hany|discriminate Hlen]. }
    rewrite Hleaf. simpl.
    set (body := λ neighbor s0, _).
    destruct (for_keys_of node body _) as [s1|e|] eqn:Hloop.
    - apply for_keys_of_unlink_Ok in Hloop as (_ & n' & Hn' & Hnil).
      + simpl in Hn'. rewrite Hn in Hn'. injection Hn' as <-.
        by rewrite Hnil in Hne.
      + intros k s2 s3 Hk. apply bind_Ok in Hk as (s4 & Hk & ?). inv_ok.
        unfold unlink in Hk. by inv_ok.
    - by exists e.
    - exfalso. revert Hloop. apply for_keys_of_fuel. intros k s0.
      apply bind_fuel; [apply unlink_fuel|done]. }
  exists e. unfold _remove_nodes_with_leaf_child, round1.
  destruct (nodes s) as [|y l] eqn:Hl; [done|]. simpl length.
  rewrite (for_live_raise nodes r1_body _ node s e); [done| |done].
  by rewrite Hl.
Qed.

Lemma round1_raises_on_leaf_child_witness :
  ∃ e, _remove_nodes_with_leaf_child mutual_pair = Raise e.
Proof.
  apply (round1_raises_on_leaf_child _ 0%nat); reflexivity.
Defined.

(** As [for_live_rel], for steps that need to know that the element comes
    from the list. *)
Lemma for_live_rel_in {St} (cur : St → list ref) (body : ref → St → result St)
    (R : St → St → Prop) :
  (∀ s, R s s) → (∀ s1 s2 s3, R s1 s2 → R s2 s3 → R s1 s3) →
  (∀ x s s', x ∈ cur s → body x s = Ok s' → R s s') →
  ∀ fuel i s s' visited,
    for_live cur body fuel i s = Ok (s', visited) → R s s'.
Proof.
  intros Hrefl Htrans Hbody.
  induction fuel as [|fuel IH]; intros i s s' visited H; simpl in H.
  - destruct (cur s !! i); [discriminate|]. inv_ok. by simplify_eq.
  - destruct (cur s !! i) as [x|] eqn:Hx; [|inv_ok; by simplify_eq].
    apply bind_Ok in H as (s1 & Hs1 & H).
    apply bind_Ok in H as ([s2 vs] & Hs2 & H). inv_ok. simplify_eq.
    eapply Htrans; [|by eapply IH].
    eapply Hbody; [|done]. by eapply list_elem_of_lookup_2.
Qed.

(** ** What Round 2 records *)

(** X8.  When Round 2 returns it has appended exactly one value to the
    drop list: -1, the value of its placeholder node, or the value of a
    listed node that has at least one neighbour.  It has changed no edge
    count and no adjacency (the heap only gains the placeholder), and it
    has taken out of [self.nodes] only nodes without neighbours. *)
Theorem round2_appends_one s s' :
  _remove_nodes_in_cycles s = Ok s' →
  heap s' = heap s ++ [Node.mk (-1) []] ∧ num_edges s' = num_edges s ∧
  nodes s' `sublist_of` nodes s ∧
  ∃ v, to_drop s' = to_drop s ++ [v] ∧
       (v = -1 ∨
        ∃ r n, r ∈ nodes s ∧ heap s !! r = Some n ∧ Node.value n = v ∧
               Node.edge n ≠ []).
Proof.
  unfold _remove_nodes_in_cycles, round2, new_Node. simpl. intros H.
  apply bind_Ok in H as ([[s1 [w r]] vs] & Hloop & H).
  apply bind_Ok in H as (n & Hn & H). apply deref_Ok in Hn. inv_ok. simpl.
  set (R := λ st st' : State * (float * ref),
         sheds_isolated st.1 st'.1 ∧ to_drop st'.1 = to_drop st.1 ∧
         num_edges st'.1 = num_edges st.1 ∧
         (st'.2.2 = st.2.2 ∨
          st'.2.2 ∈ nodes st.1 ∧
          ∃ n, heap st.1 !! st'.2.2 = Some n ∧ Node.edge n ≠ [])).
  apply (for_live_rel_in _ _ R) in Hloop.
  - destruct Hloop as ((Hh & Hsub & _) & Hd & He & Hr). simpl in *.
    split; [done|]. split; [done|]. split; [done|].
    exists (Node.value n). split; [by rewrite Hd|].
    rewrite Hh in Hn. destruct Hr as [->|[Hin (n' & Hn' & Hne)]].
    + left. rewrite lookup_app_r, Nat.sub_diag in Hn by lia.
      by injection Hn as <-.
    + right. rewrite Hn in Hn'. injection Hn' as <-.
      exists r, n. split; [done|]. split; [|done].
      destruct (decide (r < length (heap s))%nat) as [Hlt|Hge].
      * by rewrite lookup_app_l in Hn.
      * rewrite lookup_app_r in Hn by lia.
        destruct (r - length (heap s))%nat; simpl in Hn; [|done].
        injection Hn as <-. done.
  - intros st. split; [apply sheds_isolated_refl|]. by repeat split; left.
  - intros st1 st2 st3 (Hs12 & Hd12 & He12 & Hr12) (Hs23 & Hd23 & He23 & Hr23).
    split; [by eapply sheds_isolated_trans|].
    split; [congruence|]. split; [congruence|].
    destruct Hr23 as [->|[Hin (n' & Hn' & Hne)]]; [done|]. right.
    destruct Hs12 as (Hh & Hsub & _). rewrite Hh in Hn'.
    split; [|by eauto]. by eapply elem_of_sublist.
  - intros x [s0 [w0 r0]] st' Hx Hb.
    split; [by eapply r2_body_sheds_isolated|].
    unfold r2_body in Hb. apply bind_Ok in Hb as (n0 & Hn0 & Hb).
    apply deref_Ok in Hn0. simpl in *.
    destruct (decide _) as [|Hne].
    + apply bind_Ok in Hb as (s2 & Hs2 & Hb). inv_ok. simpl.
      unfold remove in Hs2. inv_ok. simpl. by repeat split; left.
    + destruct (_ <? _)%float; inv_ok; simpl;
        (split; [done|]); (split; [done|]); [|by left].
      right. split; [done|]. exists n0. split; [done|].
      intros Hnil. by rewrite Hnil in Hne.
Qed.

Lemma round2_appends_one_witness :
  ∃ s s', __init__ corr_pair 0.9%float = Ok s ∧
    _remove_nodes_in_cycles s = Ok s' ∧
    heap s' = heap s ++ [Node.mk (-1) []] ∧ num_edges s' = num_edges s ∧
    nodes s' `sublist_of` nodes s ∧
    ∃ v, to_drop s' = to_drop s ++ [v] ∧
         (v = -1 ∨
          ∃ r n, r ∈ nodes s ∧ heap s !! r = Some n ∧ Node.value n = v ∧
                 Node.edge n ≠ []).
Proof.
  eexists _, _. split; [reflexivity|]. split; [reflexivity|].
  apply round2_appends_one. reflexivity.
Defined.

(** X9.  When no listed node has a total weight above 0.0 (weights that
    are zero or negative, or no neighbours at all), Round 2 returns and what
    it appends to the drop list is -1, the value of its placeholder, which
    is no feature index. *)
Theorem round2_records_placeholder s :
  (∀ r, r ∈ nodes s →
     ∃ n, heap s !! r = Some n ∧
          (0 <? sum (Dict.values (Node.edge n)))%float = false) →
  ∃ s', _remove_nodes_in_cycles s = Ok s' ∧ to_drop s' = to_drop s ++ [-1].
Proof.
  intros Hs. unfold _remove_nodes_in_cycles, round2, new_Node. simpl.
  set (s0 := set_heap (heap s ++ [Node.mk (-1) []]) s).
  set (P := λ st : State * (float * ref),
         heap st.1 = heap s ++ [Node.mk (-1) []] ∧ nodes st.1 ⊆ nodes s ∧
         to_drop st.1 = to_drop s ∧ st.2 = (0%float, length (heap s))).
  destruct (for_live_total (λ st : State * (float * ref), nodes st.1)
              r2_body P) with (fuel := length (nodes s)) (i := 0%nat)
              (s := (s0, (0%float, length (heap s))))
    as ([s1 [w r]] & visited & Hloop & (Hh & _ & Hd & Hl)).
  - intros i x [s1 [w r]] (Hh & Hsub & Hd & Hl) Hx. simpl in *.
    injection Hl as -> ->.
    assert (x ∈ nodes s1) as Hin by (by eapply list_elem_of_lookup_2).
    destruct (Hs x (Hsub _ Hin)) as (n & Hn & Hw).
    unfold Node.deref. rewrite Hh, lookup_app_l, Hn
      by (by eapply lookup_lt_Some). simpl.
    destruct (decide _).
    + apply list_remove_elem in Hin as (l' & Hl').
      unfold remove. rewrite Hl'. simpl. eexists. split; [done|]. simpl.
      split; [|apply list_remove_length in Hl'; lia].
      split; [done|]. split; [|done].
      intros y Hy. apply Hsub. by eapply list_remove_subseteq.
    + rewrite Hw. eexists. split; [done|]. simpl. by repeat split.
  - by repeat split.
  - simpl. lia.
  - simpl in Hloop. rewrite Hloop. simpl in *. injection Hl as -> ->.
    unfold Node.deref. rewrite Hh, lookup_app_r, Nat.sub_diag by lia. simpl.
    eexists. split; [done|]. simpl. by rewrite Hd.
Qed.

Lemma round2_records_placeholder_witness :
  ∃ s s', __init__ (frame_of_rows [[1; 0]; [0; 1]]%float) 0%float = Ok s ∧
    num_edges s = 1 ∧
    _remove_nodes_in_cycles s = Ok s' ∧ to_drop s' = to_drop s ++ [-1].
Proof.
  eexists. 
  destruct (round2_records_placeholder
    (mk (frame_of_rows [[1; 0]; [0; 1]]%float)
       [Node.mk 0 [(1%nat, 0%float)]; Node.mk 1 []; Node.mk 1 []]
       [0; 1; 2]%nat [] 1)) as (s' & Hs' & Hd).
  - intros r Hr. simpl in Hr.
    apply elem_of_cons in Hr as [->|Hr]; [by eexists|].
    apply elem_of_cons in Hr as [->|Hr]; [by eexists|].
    apply elem_of_cons in Hr as [->|Hr]; [by eexists|].
    by apply elem_of_nil in Hr.
  - exists s'. split; [reflexivity|]. split; [reflexivity|]. by split.
Defined.

(** ** The loop as a whole *)

Lemma round2_sheds_isolated s s' r n :
  _remove_nodes_in_cycles s = Ok s' →
  r ∈ nodes s → heap s !! r = Some n → Node.edge n ≠ [] →
  r ∈ nodes s' ∧ heap s' !! r = Some n.
Proof.
  intros H Hr Hn Hne.
  pose proof (remove_nodes_in_cycles_Ok _ _ H) as (_ & Hh & _).
  split.
  2:{ rewrite Hh, lookup_app_l; [done|]. by eapply lookup_lt_Some. }
  unfold _remove_nodes_in_cycles, round2, new_Node in H. simpl in H.
  apply bind_Ok in H as ([[s1 [w r1]] vs] & Hloop & H).
  apply bind_Ok in H as (n1 & _ & H). inv_ok. simpl.
  apply (for_live_rel _ _ (λ st st' : State * (float * ref),
           sheds_isolated st.1 st'.1)) in Hloop.
  - destruct Hloop as (_ & _ & Hkeep). simpl in Hkeep.
    destruct (Hkeep r Hr) as [|(n' & Hn' & Hnil)]; [done|].
    rewrite lookup_app_l in Hn' by (by eapply lookup_lt_Some).
    congruence.
  - intros st. apply sheds_isolated_refl.
  - intros st1 st2 st3. apply sheds_isolated_trans.
  - apply r2_body_sheds_isolated.
Qed.

(** X10.  A node with at least one neighbour is never taken out of
    [self.nodes] and its adjacency is never changed: it is still listed,
    with the same edges, after any number of iterations of the loop of
    [prune] that return. *)
Theorem linked_nodes_stay k s s' r n :
  prune_steps k s = Ok s' →
  r ∈ nodes s → heap s !! r = Some n → Node.edge n ≠ [] →
  r ∈ nodes s' ∧ heap s' !! r = Some n.
Proof.
  revert s. induction k as [|k IH]; intros s H Hr Hn Hne; simpl in H;
    [by inv_ok|].
  destruct (decide (num_edges s = 0)); [by inv_ok|].
  apply bind_Ok in H as (s1 & H1 & H).
  apply bind_Ok in H as (s2 & H2 & H).
  apply round1_sheds_isolated in H1 as (Hh1 & _ & Hkeep).
  assert (r ∈ nodes s1) as Hr1.
  { destruct (Hkeep r Hr) as [|(n' & Hn' & Hnil)]; [done|congruence]. }
  rewrite <- Hh1 in Hn.
  destruct (round2_sheds_isolated _ _ _ _ H2 Hr1 Hn Hne) as [Hr2 Hn2].
  by apply (IH s2).
Qed.

Lemma linked_nodes_stay_witness :
  ∃ s s', __init__ corr_pair 0.9%float = Ok s ∧
    prune_steps 3 s = Ok s' ∧
    0%nat ∈ nodes s' ∧
    heap s' !! 0%nat = Some (Node.mk 0 [(1%nat, 0.95%float)]).
Proof.
  exists pair_graph. eexists. split; [reflexivity|]. split; [reflexivity|].
  apply (linked_nodes_stay 3 pair_graph _ 0%nat
           (Node.mk 0 [(1%nat, 0.95%float)]));
    [reflexivity| |reflexivity|discriminate].
  simpl. by left.
Defined.

(** X11.  From any state, [prune] returns only when [num_edges] is
    already 0, and it returns the graph exactly as it was: no run of
    [prune] that returns has removed an edge or dropped a feature. *)
Theorem prune_returns_unchanged fuel s s' :
  prune fuel s = Ok s' → num_edges s = 0 ∧ s' = s.
Proof. apply prune_Ok. Qed.

Lemma prune_returns_unchanged_witness :
  ∃ s, __init__ corr_apart 0.9%float = Ok s ∧ prune 0 s = Ok s ∧
       num_edges s = 0 ∧ s = s.
Proof.
  eexists. split; [reflexivity|]. split; [reflexivity|].
  apply (prune_returns_unchanged 0%nat). reflexivity.
Defined.

(** X12.  On a graph the constructor built, [prune] returns (with some
    amount of fuel) exactly when no pair of features reaches the
    threshold. *)
Theorem prune_returns_iff_no_pair m t s :
  __init__ m t = Ok s →
  (∃ fuel s', prune fuel s = Ok s') ↔ pairs_above m t = 0%nat.
Proof.
  intros Hs.
  assert (num_edges s = Z.of_nat (pairs_above m t)) as He.
  { assert ((shape m).1 = (shape m).2) as Hsq.
    { unfold __init__ in Hs. destruct (decide _) as [|Hsq]; [done|].
      by apply dec_stable in Hsq. }
    destruct (init_spec m t Hsq) as (s0 & Hs0 & _ & He & _).
    rewrite pairs_above_rows. congruence. }
  split.
  - intros (fuel & s' & Hp). apply prune_Ok in Hp as [Hz _]. lia.
  - intros Hz. exists 0%nat, s. simpl. rewrite decide_True; [done|lia].
Qed.

Lemma prune_returns_iff_no_pair_witness :
  (∃ fuel s', prune fuel pair_graph = Ok s') ↔
  pairs_above corr_pair 0.9%float = 0%nat.
Proof. apply (prune_returns_iff_no_pair corr_pair 0.9%float). reflexivity. Defined.

Lemma built_prune_steps k s :
  built s → num_edges s ≠ 0 →
  ∃ s', prune_steps k s = Ok s' ∧ built s' ∧
        num_edges s' = num_edges s ∧
        length (to_drop s') = (length (to_drop s) + k)%nat.
Proof.
  revert s. induction k as [|k IH]; intros s Hb Hne; simpl.
  - exists s. repeat split; try done; try apply Hb.
  - rewrite decide_False by done.
    destruct (built_round1 s Hb) as (s1 & vs & H1 & Hb1).
    unfold _remove_nodes_with_leaf_child. rewrite H1. simpl.
    destruct (built_remove_nodes_in_cycles s1 Hb1) as (s2 & H2 & Hb2).
    rewrite H2. simpl.
    apply round1_only_removes in H1 as (_ & _ & Hd1 & He1 & _).
    apply remove_nodes_in_cycles_Ok in H2 as (_ & _ & (v & Hd2) & He2 & _).
    destruct (IH s2 Hb2) as (s' & Hs' & Hb' & He' & Hd'); [congruence|].
    exists s'. split; [done|]. split; [done|]. split; [congruence|].
    rewrite Hd', Hd2, length_app, Hd1. simpl. lia.
Qed.

(** X13.  On a graph the constructor built with at least one pair at or
    above the threshold, every iteration of the loop of [prune] returns,
    leaves [num_edges] as it was and makes the drop list one value longer:
    after [k] iterations the drop list has [k] entries. *)
Theorem drop_list_grows m t s k :
  __init__ m t = Ok s → pairs_above m t ≠ 0%nat →
  ∃ s', prune_steps k s = Ok s' ∧
        num_edges s' = Z.of_nat (pairs_above m t) ∧
        length (to_drop s') = k.
Proof.
  intros Hs Hp. pose proof (init_Ok_inv _ _ _ Hs) as Hinv.
  assert (num_edges s = Z.of_nat (pairs_above m t)) as He.
  { assert ((shape m).1 = (shape m).2) as Hsq.
    { unfold __init__ in Hs. destruct (decide _) as [|Hsq]; [done|].
      by apply dec_stable in Hsq. }
    destruct (init_spec m t Hsq) as (s0 & Hs0 & _ & He & _).
    rewrite pairs_above_rows. congruence. }
  destruct (built_prune_steps k s) as (s' & Hs' & _ & He' & Hd').
  - by eapply init_inv_built.
  - lia.
  - exists s'. split; [done|]. split; [congruence|].
    rewrite Hd', (inv_to_drop _ _ Hinv). simpl. lia.
Qed.

Lemma drop_list_grows_witness :
  ∃ s', prune_steps 4 pair_graph = Ok s' ∧
        num_edges s' = Z.of_nat (pairs_above corr_pair 0.9%float) ∧
        length (to_drop s') = 4%nat.
Proof.
  apply (drop_list_grows corr_pair 0.9%float pair_graph 4);
    [reflexivity|by vm_compute].
Defined.

(** ** More on the constructor *)

(** X14.  The constructor raises [ValueError] exactly for a frame that is
    not square, and returns a graph for every frame that is: no entry and
    no threshold makes it fail. *)
Theorem init_outcome m t :
  (__init__ m t = Raise ValueError ↔ (shape m).1 ≠ (shape m).2) ∧
  ((∃ s, __init__ m t = Ok s) ↔ (shape m).1 = (shape m).2).
Proof.
  destruct (decide ((shape m).1 = (shape m).2)) as [Hsq|Hne].
  - destruct (init_spec m t Hsq) as (s & Hs & _). rewrite Hs.
    split; split; try done. by eauto.
  - unfold __init__. rewrite decide_True by done.
    split; split; try done. by intros [s ?].
Qed.

(** X15.  No node of a graph the constructor built has a leaf child:
    every neighbour is an object whose own adjacency is empty, never one
    with exactly one entry. *)
Theorem init_no_leaf_child m t s r :
  __init__ m t = Ok s → (r < length (heap s))%nat →
  Node.has_leaf_child r (heap s) = Ok false.
Proof.
  intros Hs Hr. pose proof (init_Ok_inv _ _ _ Hs) as Hinv.
  destruct (lookup_lt_is_Some_2 _ _ Hr) as (n & Hn).
  eapply flat_has_leaf_child; [apply (inv_flat _ _ Hinv)|done].
Qed.

Lemma init_no_leaf_child_witness :
  Node.has_leaf_child 0 (heap pair_graph) = Ok false.
Proof.
  apply (init_no_leaf_child corr_pair 0.9%float pair_graph 0);
    [reflexivity|simpl; lia].
Defined.

Lemma linked_lt m t n row col : col ∈ linked m t n row → (row < col < n)%nat.
Proof.
  unfold linked, range. intros H%list_elem_of_In%filter_In.
  destruct H as [H%in_seq _]. lia.
Qed.

Lemma init_node_values_range m t s v :
  __init__ m t = Ok s → v ∈ node_values s →
  v ∈ Z.of_nat <$> seq 0 (shape m).1.
Proof.
  intros Hs. rewrite (init_node_values _ _ _ Hs).
  intros (row & Hrow & Hv)%list_elem_of_In%in_flat_map.
  unfold range in Hrow. apply in_seq in Hrow.
  apply list_elem_of_In, elem_of_cons in Hv as [->|Hv].
  - apply list_elem_of_fmap. exists row. split; [done|].
    apply elem_of_seq. lia.
  - apply list_elem_of_fmap in Hv as (col & -> & Hcol).
    apply linked_lt in Hcol.
    apply list_elem_of_fmap. exists col. split; [done|].
    apply elem_of_seq. lia.
Qed.

Lemma sum_list_with_0 {A} (f : A → nat) (l : list A) :
  sum_list_with f l = 0%nat → ∀ x, x ∈ l → f x = 0%nat.
Proof.
  induction l as [|y l IH]; simpl; intros H x Hx.
  - by apply elem_of_nil in Hx.
  - apply elem_of_cons in Hx as [->|Hx]; [lia|]. apply IH; [lia|done].
Qed.

Lemma row_values_unlinked m t n rows :
  (∀ row, row ∈ rows → linked m t n row = []) →
  flat_map (row_values m t n) rows = Z.of_nat <$> rows.
Proof.
  induction rows as [|row rows IH]; intros H; simpl; [done|].
  rewrite IH by (intros x Hx; apply H; by right).
  unfold row_values. by rewrite (H row) by (by left).
Qed.

(** X16.  The node list the constructor builds holds each feature index
    once exactly when no pair of features reaches the threshold: every
    pair at or above it puts a second node for its column in the list. *)
Theorem init_nodes_unique_iff m t s :
  __init__ m t = Ok s →
  NoDup (node_values s) ↔ pairs_above m t = 0%nat.
Proof.
  intros Hs. split.
  - intros Hnd.
    assert (node_values s ⊆+ Z.of_nat <$> seq 0 (shape m).1) as Hsub.
    { apply NoDup_submseteq; [done|]. intros v.
      by apply init_node_values_range with (t := t). }
    apply submseteq_length in Hsub.
    rewrite (init_node_values_length _ _ _ Hs), length_fmap, length_seq in Hsub.
    lia.
  - intros Hz. rewrite (init_node_values _ _ _ Hs).
    rewrite pairs_above_rows in Hz.
    pose proof (sum_list_with_0 _ _ Hz) as Hrows.
    rewrite row_values_unlinked
      by (intros row Hrow; by apply nil_length_inv, Hrows).
    apply NoDup_fmap; [apply Nat2Z.inj'|apply NoDup_seq].
Qed.

Lemma init_nodes_unique_iff_witness :
  NoDup (node_values pair_graph) ↔ pairs_above corr_pair 0.9%float = 0%nat.
Proof. apply (init_nodes_unique_iff corr_pair 0.9%float). reflexivity. Defined.

(** ** The heap the constructor builds *)

Lemma row_inv_keys_lt m node s r n k :
  row_inv m node s → heap s !! r = Some n → k ∈ Dict.keys (Node.edge n) →
  (k < length (heap s))%nat.
Proof.
  intros [[_ _ Hflat _] _ _] Hn Hk.
  destruct (Hflat _ _ _ Hn Hk) as (n' & Hn' & _). by eapply lookup_lt_Some.
Qed.

Lemma init_col_heap m t row node col s s' n :
  row_inv m node s → heap s !! node = Some n →
  init_col t row node col s = Ok s' →
  heap s' =
    if above m t row col
    then <[node := Node.mk (Node.value n)
                     (Node.edge n ++ [(length (heap s), iloc m row col)])]>
           (heap s ++ [Node.mk (Z.of_nat col) []])
    else heap s.
Proof.
  intros Hinv Hn. pose proof Hinv as [[Hm _ _ Hnodes] Hnode _].
  unfold init_col, above. rewrite Hm.
  destruct (t <=? iloc m row col)%float; simpl; [|by intros [= <-]].
  unfold link, Node.link, Node.deref. simpl.
  rewrite lookup_app_l, Hn by done. simpl. intros [= <-].
  unfold add_node. destruct (decide _); simpl;
    (rewrite setitem_fresh;
     [|intros Hk; pose proof (row_inv_keys_lt _ _ _ _ _ _ Hinv Hn Hk); lia]);
    unfold Node.set_edge; by rewrite lookup_app_l, Hn.
Qed.

Lemma init_cols_heap m t row node cols : ∀ s s' n,
  row_inv m node s → heap s !! node = Some n →
  for_each cols (init_col t row node) s = Ok s' →
  heap s' =
    <[node := Node.mk (Node.value n)
                (Node.edge n ++
                 imap (λ k col, ((length (heap s) + k)%nat, iloc m row col))
                   (List.filter (above m t row) cols))]>
      (heap s ++
       ((λ col, Node.mk (Z.of_nat col) []) <$>
        List.filter (above m t row) cols)).
Proof.
  induction cols as [|col cols IH]; intros s s' n Hinv Hn H; simpl in H.
  - inv_ok. simpl. rewrite !app_nil_r. symmetry. apply list_insert_id.
    rewrite Hn. by destruct n.
  - apply bind_Ok in H as (s1 & H1 & H).
    pose proof (init_col_heap _ _ _ _ _ _ _ _ Hinv Hn H1) as Hh1.
    destruct (init_col_spec m t row node col s Hinv) as (s1' & H1' & Hinv1 & _).
    assert (s1' = s1) as -> by congruence.
    pose proof (row_node _ _ _ Hinv) as Hlt.
    simpl. destruct (above m t row col); simpl.
    + assert (heap s1 !! node =
                Some (Node.mk (Node.value n)
                        (Node.edge n ++ [(length (heap s), iloc m row col)])))
        as Hn1.
      { rewrite Hh1. apply list_lookup_insert_eq. rewrite length_app. lia. }
      rewrite (IH _ _ _ Hinv1 Hn1 H). simpl.
      assert (length (heap s1) = S (length (heap s))) as ->.
      { rewrite Hh1, length_insert, length_app. simpl. lia. }
      rewrite Hh1, <- insert_app_l by (rewrite length_app; lia).
      rewrite list_insert_insert_eq, <- !app_assoc. simpl.
      do 3 f_equal. rewrite Nat.add_0_r. f_equal.
      apply imap_ext. intros k x _. simpl. f_equal. lia.
    + rewrite <- Hh1 in Hn. by rewrite (IH _ _ _ Hinv1 Hn H), Hh1.
Qed.

Lemma init_row_start m row s :
  init_inv m s →
  row_inv m (length (heap s))
    (set_nodes (seq 0 (S (length (heap s))))
       (set_heap (heap s ++ [Node.mk (Z.of_nat row) []]) s)).
Proof.
  intros [Hm Hdrop Hflat Hnodes]. split; [split|..]; simpl.
  - done.
  - done.
  - by apply flat_alloc.
  - rewrite length_app. simpl.
    by replace (length (heap s) + 1)%nat with (S (length (heap s))) by lia.
  - rewrite length_app. simpl. lia.
  - intros r n0 Hr Hk.
    destruct (decide (r < length (heap s))%nat) as [Hlt|Hge].
    + rewrite lookup_app_l in Hr by done.
      destruct (Hflat _ _ _ Hr Hk) as (n' & Hn' & _).
      apply lookup_lt_Some in Hn'. lia.
    + rewrite lookup_app_r in Hr by lia.
      destruct (r - length (heap s))%nat; simpl in Hr; [|done].
      injection Hr as <-. simpl in Hk. by apply elem_of_nil in Hk.
Qed.

Lemma init_row_heap m t n row s s' :
  init_inv m s → init_row t n row s = Ok s' →
  heap s' = heap s ++ row_objects m t n (length (heap s)) row.
Proof.
  intros Hinv H. unfold init_row, new_Node in H. simpl in H.
  rewrite add_node_fresh in H by apply (inv_nodes _ _ Hinv).
  eapply (init_cols_heap m t row) in H; [|by apply init_row_start|].
  2:{ simpl. by rewrite lookup_app_r, Nat.sub_diag by lia. }
  rewrite H. simpl. rewrite <- app_assoc.
  rewrite insert_app_r_alt, Nat.sub_diag by lia. simpl.
  unfold row_objects, linked. do 3 f_equal.
  apply imap_ext. intros k col _. simpl. f_equal.
  rewrite length_app. simpl. lia.
Qed.

Lemma init_rows_heap m t n rows : ∀ s s',
  init_inv m s → for_each rows (init_row t n) s = Ok s' →
  heap s' = heap s ++ rows_objects m t n (length (heap s)) rows.
Proof.
  induction rows as [|row rows IH]; intros s s' Hinv H; simpl in H.
  - inv_ok. simpl. by rewrite app_nil_r.
  - apply bind_Ok in H as (s1 & H1 & H).
    pose proof (init_row_heap _ _ _ _ _ _ Hinv H1) as Hh1.
    destruct (init_row_spec m t n row s Hinv) as (s1' & H1' & Hinv1 & _).
    assert (s1' = s1) as -> by congruence.
    rewrite (IH _ _ Hinv1 H), Hh1, length_app, <- app_assoc. done.
Qed.

Lemma init_heap m t s :
  __init__ m t = Ok s →
  heap s = rows_objects m t (shape m).1 0 (range 0 (shape m).1).
Proof.
  intros Hs. unfold __init__ in Hs. destruct (decide _); [done|].
  by apply (init_rows_heap m t) in Hs.
Qed.

(** X17.  The graph the constructor returns, in full.  Row by row the heap
    holds the node of the row followed by a new node for each linked
    column; edges go from the row's node to those new nodes only, weighted
    by the matrix entries, and the new nodes have no edge.  Every object
    is listed in [self.nodes] in allocation order, the drop list is empty
    and the frame is the caller's. *)
Theorem init_builds m t s :
  __init__ m t = Ok s →
  heap s = rows_objects m t (shape m).1 0 (range 0 (shape m).1) ∧
  nodes s = seq 0 (length (heap s)) ∧
  length (heap s) = ((shape m).1 + pairs_above m t)%nat ∧
  to_drop s = [] ∧ num_edges s = Z.of_nat (pairs_above m t) ∧
  corr_matrix s = m.
Proof.
  intros Hs. pose proof (init_Ok_inv _ _ _ Hs) as [Hm Hd Hflat Hnodes].
  assert (num_edges s = Z.of_nat (pairs_above m t)) as He.
  { assert ((shape m).1 = (shape m).2) as Hsq.
    { unfold __init__ in Hs. destruct (decide _) as [|Hsq]; [done|].
      by apply dec_stable in Hsq. }
    destruct (init_spec m t Hsq) as (s0 & Hs0 & _ & He & _).
    rewrite pairs_above_rows. congruence. }
  pose proof (init_node_values_length _ _ _ Hs) as Hlen.
  assert (node_values s = Node.value <$> heap s) as Hv.
  { unfold node_values. rewrite Hnodes.
    apply (omap_lookup_seq Node.value [] (heap s)). }
  rewrite Hv, length_fmap in Hlen.
  repeat split; try done. by apply init_heap.
Qed.

Lemma init_builds_witness :
  heap pair_graph = rows_objects corr_pair 0.9%float 2 0 (range 0 2) ∧
  nodes pair_graph = seq 0 (length (heap pair_graph)) ∧
  length (heap pair_graph) = (2 + pairs_above corr_pair 0.9%float)%nat ∧
  to_drop pair_graph = [] ∧
  num_edges pair_graph = Z.of_nat (pairs_above corr_pair 0.9%float) ∧
  corr_matrix pair_graph = corr_pair.
Proof. apply (init_builds corr_pair 0.9%float pair_graph). reflexivity. Defined.

(** ** The weight of a node after construction *)

Lemma rows_objects_lookup m t n pre : ∀ base row post,
  rows_objects m t n base (pre ++ row :: post)
    !! sum_list_with (λ r, S (length (linked m t n r))) pre =
  Some (Node.mk (Z.of_nat row)
          (imap (λ k col,
                   ((base + sum_list_with
                              (λ r, S (length (linked m t n r))) pre
                     + 1 + k)%nat, iloc m row col))
             (linked m t n row))).
Proof.
  induction pre as [|r pre IH]; intros base row post; simpl.
  - f_equal. f_equal. apply imap_ext. intros k col _. simpl. f_equal. lia.
  - rewrite lookup_app_r by (rewrite length_fmap; lia).
    rewrite !length_fmap.
    replace (length (linked m t n r) +
             sum_list_with (λ r0, S (length (linked m t n r0))) pre -
             length (linked m t n r))%nat
      with (sum_list_with (λ r0, S (length (linked m t n r0))) pre) by lia.
    rewrite IH. f_equal. f_equal.
    apply imap_ext. intros k col _. simpl. f_equal. lia.
Qed.

Lemma values_imap {A} (f : nat → A → ref) (g : A → float) (l : list A) :
  Dict.values (imap (λ k x, (f k x, g x)) l) = g <$> l.
Proof.
  unfold Dict.values. revert f. induction l as [|x l IH]; intros f; simpl;
    [done|].
  f_equal. apply (IH (λ k, f (S k))).
Qed.

(** X18.  After construction the node of feature [row] sits at
    [row_ref], and its total weight is the sum, from left to right
    starting at 0.0, of the entries (row, col) over the linked columns
    [col > row] in increasing order: a correlation with a feature of lower
    index, however strong, adds nothing to it. *)
Theorem init_overall_weight m t s row :
  __init__ m t = Ok s → (row < (shape m).1)%nat →
  Node.value <$> heap s !! row_ref m t (shape m).1 row = Some (Z.of_nat row) ∧
  Node.get_overall_weight (row_ref m t (shape m).1 row) (heap s) =
    Ok (sum (iloc m row <$> linked m t (shape m).1 row)).
Proof.
  intros Hs Hrow. rewrite (init_heap _ _ _ Hs).
  assert (range 0 (shape m).1 =
          seq 0 row ++ row :: seq (S row) ((shape m).1 - S row)) as ->.
  { unfold range. rewrite Nat.sub_0_r.
    replace ((shape m).1) with (row + S ((shape m).1 - S row))%nat at 1 by lia.
    by rewrite seq_app. }
  unfold row_ref, Node.get_overall_weight, Node.deref.
  rewrite rows_objects_lookup. simpl. split; [done|].
  by rewrite values_imap.
Qed.

Lemma init_overall_weight_witness :
  Node.value <$> heap pair_graph !! row_ref corr_pair 0.9%float 2 0 =
    Some 0 ∧
  Node.get_overall_weight (row_ref corr_pair 0.9%float 2 0) (heap pair_graph) =
    Ok (sum (iloc corr_pair 0 <$> linked corr_pair 0.9%float 2 0)).
Proof.
  apply (init_overall_weight corr_pair 0.9%float pair_graph 0);
    [reflexivity|simpl; lia].
Defined.

(** ** Round 2 always returns *)

(** X19.  Round 2 raises nothing: whatever the adjacencies and weights,
    it returns (every reference in [self.nodes] being that of an object,
    as it always is in Python). *)
Theorem round2_never_raises s :
  (∀ r, r ∈ nodes s → is_Some (heap s !! r)) →
  ∃ s', _remove_nodes_in_cycles s = Ok s'.
Proof.
  intros Hs. unfold _remove_nodes_in_cycles, round2, new_Node. simpl.
  set (s0 := set_heap (heap s ++ [Node.mk (-1) []]) s).
  set (P := λ st : State * (float * ref),
         (∀ r, r ∈ nodes st.1 → is_Some (heap st.1 !! r)) ∧
         is_Some (heap st.1 !! st.2.2)).
  destruct (for_live_total (λ st : State * (float * ref), nodes st.1)
              r2_body P) with (fuel := length (nodes s)) (i := 0%nat)
              (s := (s0, (0%float, length (heap s))))
    as ([s1 [w r]] & visited & Hloop & (_ & [n Hn])).
  - intros i x [s1 [w r]] [Hval Hr] Hx. simpl in *.
    assert (x ∈ nodes s1) as Hin by (by eapply list_elem_of_lookup_2).
    destruct (Hval x Hin) as (n & Hn).
    unfold Node.deref. rewrite Hn. simpl.
    destruct (decide _).
    + pose proof Hin as (l' & Hl')%list_remove_elem.
      unfold remove. rewrite Hl'. simpl. eexists. split; [done|]. simpl.
      split; [|apply list_remove_length in Hl'; lia].
      split; [|done]. intros y Hy. apply Hval.
      by eapply list_remove_subseteq.
    + destruct (_ <? _)%float; eexists; (split; [done|]); simpl;
        (split; [|lia]); split; eauto.
  - split; simpl.
    + intros r Hr. destruct (Hs r Hr) as (n & Hn).
      exists n. rewrite lookup_app_l; [done|]. by eapply lookup_lt_Some.
    + rewrite lookup_app_r, Nat.sub_diag by lia. by eexists.
  - simpl. lia.
  - simpl in Hloop. rewrite Hloop. simpl in *.
    unfold Node.deref. rewrite Hn. simpl. by eexists.
Qed.

Lemma round2_never_raises_witness :
  ∃ s', _remove_nodes_in_cycles mutual_pair = Ok s'.
Proof.
  apply round2_never_raises. intros r Hr. simpl in Hr.
  apply elem_of_cons in Hr as [->|Hr]; [by eexists|].
  apply elem_of_cons in Hr as [->|Hr]; [by eexists|].
  by apply elem_of_nil in Hr.
Defined.
